(** * Polygon orientation by signed turning angles

    A shallow embedding of [polygon_orientation.py] and the properties of
    its four functions: [normalize], [angle_between], [compute_total_angle]
    and [compute_n_rotations].

    Number model.  The program computes on numpy float64 values.  Here a
    finite float is a real number (no rounding, no overflow, no underflow)
    and the one non-finite value the program can manufacture from finite
    input, the [nan] of the quotient [0/0] in [normalize], is kept as a
    separate value that every later operation propagates, as numpy does.
    A failed [assert] is the outcome [AssertionError]. *)

From Stdlib Require Import Reals Lra Lia List ZArith Bool Arith.
From Stdlib Require Import Permutation.
Import ListNotations.
Open Scope R_scope.

(** ** Values *)

(** A float64 as the program sees it. *)
Inductive np_float : Type :=
| Fin (r : R)
| NaN.

(** A 2D vector or point with finite coordinates, and a pair of floats. *)
Definition vec : Type := (R * R)%type.
Definition np_vec : Type := (np_float * np_float)%type.

(** The result of a call: a returned value or a failed assertion. *)
Inductive outcome (A : Type) : Type :=
| Returned (a : A)
| AssertionError.
Arguments Returned {A} a.
Arguments AssertionError {A}.

Definition bind {A B : Type} (m : outcome A) (f : A -> outcome B) : outcome B :=
  match m with
  | Returned a => f a
  | AssertionError => AssertionError
  end.

Notation "x <- m ;; k" := (bind m (fun x => k))
  (at level 61, m at next level, right associativity).

(** ** numpy primitives *)

Module Np.

Definition lift1 (f : R -> R) (a : np_float) : np_float :=
  match a with
  | Fin x => Fin (f x)
  | NaN => NaN
  end.

Definition lift2 (f : R -> R -> R) (a b : np_float) : np_float :=
  match a, b with
  | Fin x, Fin y => Fin (f x y)
  | _, _ => NaN
  end.

Definition add : np_float -> np_float -> np_float := lift2 Rplus.
Definition sub : np_float -> np_float -> np_float := lift2 Rminus.
Definition mul : np_float -> np_float -> np_float := lift2 Rmult.

(** [np.pi] *)
Definition pi : R := PI.

(** [np.linalg.norm(v)] of a 2-vector. *)
Definition norm (v : vec) : R := sqrt (fst v * fst v + snd v * snd v).

(** [np.linalg.det([a, b])] of the 2x2 matrix with rows [a] and [b]. *)
Definition det (a b : np_vec) : np_float :=
  sub (mul (fst a) (snd b)) (mul (snd a) (fst b)).

(** [np.dot(a, b)] *)
Definition dot (a b : np_vec) : np_float :=
  add (mul (fst a) (fst b)) (mul (snd a) (snd b)).

(** [np.sign]: -1, 0 or 1, and nan for nan. *)
Definition sign_R (x : R) : R :=
  if Rlt_dec 0 x then 1 else if Rlt_dec x 0 then -1 else 0.
Definition sign : np_float -> np_float := lift1 sign_R.

(** [a == b] on floats; a comparison with nan is false. *)
Definition eqb (a b : np_float) : bool :=
  match a, b with
  | Fin x, Fin y => if Req_dec_T x y then true else false
  | _, _ => false
  end.

(** [np.min([a, b])] and [np.max([a, b])]; both propagate nan. *)
Definition min : np_float -> np_float -> np_float := lift2 Rmin.
Definition max : np_float -> np_float -> np_float := lift2 Rmax.

(** [np.arccos]: nan outside [-1, 1]. *)
Definition arccos (a : np_float) : np_float :=
  match a with
  | Fin x => if Rle_dec (-1) x then if Rle_dec x 1 then Fin (acos x) else NaN
             else NaN
  | NaN => NaN
  end.

(** Default tolerances of [np.isclose]. *)
Definition default_rtol : R := 1e-5.
Definition default_atol : R := 1e-8.

(** [np.isclose(a, b, rtol, atol)] on finite values:
    [|a - b| <= atol + rtol * |b|]. *)
Definition isclose_R (a b rtol atol : R) : bool :=
  if Rle_dec (Rabs (a - b)) (atol + rtol * Rabs b) then true else false.

(** [np.isclose] on floats; nan is close to nothing. *)
Definition isclose (a b : np_float) (rtol atol : R) : bool :=
  match a, b with
  | Fin x, Fin y => isclose_R x y rtol atol
  | _, _ => false
  end.

(** [np.rint]: the nearest integer, a tie going to the even one. *)
Definition rint (x : R) : Z :=
  let f := Zfloor x in
  let d := x - IZR f in
  if Rlt_dec d (1 / 2) then f
  else if Rlt_dec (1 / 2) d then (f + 1)%Z
  else if Z.even f then f else (f + 1)%Z.

(** [np.round(x, decimals)]: scale by [10^decimals], [rint], scale back. *)
Definition round_R (x : R) (decimals : nat) : R :=
  IZR (rint (x * 10 ^ decimals)) / 10 ^ decimals.
Definition round (a : np_float) (decimals : nat) : np_float :=
  lift1 (fun x => round_R x decimals) a.

End Np.

(** ** The program *)

(** [normalize(v)]: [np.array(v) / np.linalg.norm(v)].  With finite
    coordinates the norm is zero only for the zero vector (lemma
    [norm_eq_0] below), whose quotient [0/0] is nan in both coordinates. *)
Definition normalize (v : vec) : np_vec :=
  let n := Np.norm v in
  if Req_dec_T n 0 then (NaN, NaN)
  else (Fin (fst v / n), Fin (snd v / n)).

(** [rad_to_deg(rad)] *)
Definition rad_to_deg (rad : np_float) : np_float :=
  Np.lift1 (fun r => 180 * r / Np.pi) rad.

(** The sign [s] of [angle_between]: [np.sign] of the determinant, with
    the tie-break [if s == 0: s = 1]. *)
Definition turn_sign (cross_product : np_float) : np_float :=
  let s := Np.sign cross_product in
  if Np.eqb s (Fin 0) then Fin 1 else s.

(** The two clamping lines of [angle_between]. *)
Definition clamp (dot_product : np_float) : np_float :=
  Np.max (Np.min dot_product (Fin 1)) (Fin (-1)).

(** [angle_between(v1, v2)] *)
Definition angle_between (v1 v2 : vec) : np_float :=
  let n_v1 := normalize v1 in
  let n_v2 := normalize v2 in
  let cross_product := Np.det n_v1 n_v2 in
  let s := turn_sign cross_product in
  let dot_product := clamp (Np.dot n_v1 n_v2) in
  Np.mul s (Np.arccos dot_product).

(** [points[i]] for an index in range. *)
Definition point_at (points : list vec) (i : nat) : vec := nth i points (0, 0).

(** [np.array(p) - np.array(q)] *)
Definition vsub (p q : vec) : vec := (fst p - fst q, snd p - snd q).

(** Lines 38-40 of [compute_total_angle]: the closing point is cut off when
    it is close to the first point in both coordinates. *)
Definition closes_on_first (points : list vec) : bool :=
  let first := point_at points 0 in
  let last_pt := last points (0, 0) in
  Np.isclose_R (fst first) (fst last_pt) 1e-8 Np.default_atol
  && Np.isclose_R (snd first) (snd last_pt) 1e-8 Np.default_atol.

Definition trim_closing_point (points : list vec) : list vec :=
  if closes_on_first points then removelast points else points.

(** The body of the loop of [compute_total_angle] at index [i]. *)
Definition turning_angle (points : list vec) (i : nat) : np_float :=
  let n := length points in
  let j := ((i + 1) mod n)%nat in
  let k := ((i + 2) mod n)%nat in
  let v1 := vsub (point_at points j) (point_at points i) in
  let v2 := vsub (point_at points k) (point_at points j) in
  angle_between v1 v2.

(** The loop: [cumulative_angle] threaded through [range(len(points))]. *)
Definition sum_turning_angles (points : list vec) : np_float :=
  fold_left (fun cumulative_angle i => Np.add cumulative_angle (turning_angle points i))
            (seq 0 (length points)) (Fin 0).

(** [compute_total_angle(points)] *)
Definition compute_total_angle (points : list vec) : outcome np_float :=
  if (2 <? length points)%nat
  then Returned (sum_turning_angles (trim_closing_point points))
  else AssertionError.

(** Lines 53-58 of [compute_n_rotations], from the value returned by
    [compute_total_angle] on. *)
Definition rotations_of_total_angle (angle : np_float) : outcome np_float :=
  let total_angle := rad_to_deg angle in
  let n_rotations := Np.lift1 (fun d => d / 360) total_angle in
  let round_n_rotations := Np.round n_rotations 0 in
  if Np.isclose (Np.round n_rotations 3) n_rotations Np.default_rtol 1e-8
  then Returned round_n_rotations
  else AssertionError.

(** [compute_n_rotations(points)] *)
Definition compute_n_rotations (points : list vec) : outcome np_float :=
  angle <- compute_total_angle points ;;
  rotations_of_total_angle angle.

(** ** The tests of the program *)

(** [check(expected, actual, rtol)]: [assert(np.isclose(expected, actual,
    rtol))], the absolute tolerance left at its default. *)
Definition check (expected actual : np_float) (rtol : R) : outcome unit :=
  if Np.isclose expected actual rtol Np.default_atol
  then Returned tt
  else AssertionError.

(** The default [rtol=1e-07] of [check]. *)
Definition check_rtol : R := 1e-07.

(** [test_angle_between()] *)
Definition test_angle_between : outcome unit :=
  _ <- check (Fin (Np.pi / 2)) (angle_between (10, 0) (0, 3)) check_rtol ;;
  _ <- check (Fin (- Np.pi / 2)) (angle_between (0, 10) (100, 0)) check_rtol ;;
  _ <- check (Fin (5 * Np.pi / 6)) (angle_between (10, 0) (- sqrt 3, 1)) check_rtol ;;
  _ <- check (Fin (Np.pi / 6)) (angle_between (10, 0) (sqrt 3, 1)) check_rtol ;;
  _ <- check (Fin (-5 * Np.pi / 6)) (angle_between (10, 0) (- sqrt 3, -1)) check_rtol ;;
  check (Fin (- Np.pi / 4)) (angle_between (0, 1) (5, 5)) check_rtol.

(** [test_compute_total_angle()]; [points.reverse()] is [rev]. *)
Definition test_compute_total_angle : outcome unit :=
  let points := [(0, 0); (1, 0); (1, 1)] in
  angle <- compute_total_angle points ;;
  _ <- check (Fin (2 * Np.pi)) angle check_rtol ;;
  let points := [(0, 0); (1, 0); (1, 1); (0, 1); (0, 0)] in
  angle <- compute_total_angle points ;;
  _ <- check (Fin (2 * Np.pi)) angle check_rtol ;;
  let points := [(0, 0); (1, 0); (1, -1); (2, 0); (2, 10)] in
  angle <- compute_total_angle points ;;
  _ <- check (Fin (2 * Np.pi)) angle check_rtol ;;
  let points := [(0, 0); (1, 1); (1, 0); (0, 0)] in
  angle <- compute_total_angle points ;;
  _ <- check (Fin (-2 * Np.pi)) angle check_rtol ;;
  let points := rev [(0, 0); (1, 0); (1, 1); (0, 1)] in
  angle <- compute_total_angle points ;;
  _ <- check (Fin (-2 * Np.pi)) angle check_rtol ;;
  let points := rev [(0, 0); (1, 0); (1, -1); (2, 0); (2, 10)] in
  angle <- compute_total_angle points ;;
  check (Fin (-2 * Np.pi)) angle check_rtol.

(** ** Vocabulary of the statements *)

(** [c * v] for a scalar [c]. *)
Definition scale (c : R) (v : vec) : vec := (c * fst v, c * snd v).

(** The vector of length [r] and argument [theta]. *)
Definition polar (r theta : R) : vec := (r * cos theta, r * sin theta).

(** The finite value of [normalize v] for a non-zero [v]. *)
Definition unit_of (v : vec) : vec := (fst v / Np.norm v, snd v / Np.norm v).

(** Determinant and dot product on finite pairs, the sign with its
    tie-break and the clamp on finite values: what [Np.det], [Np.dot],
    [turn_sign] and [clamp] compute away from nan. *)
Definition cross_R (u1 u2 : vec) : R := fst u1 * snd u2 - snd u1 * fst u2.
Definition dot_R (u1 u2 : vec) : R := fst u1 * fst u2 + snd u1 * snd u2.
Definition tie_sign (c : R) : R := if Rlt_dec c 0 then -1 else 1.
Definition clamp_R (d : R) : R := Rmax (Rmin d 1) (-1).

(** The edge leaving vertex [i] of the closed polygon [w], indices taken
    modulo the number of vertices as the loop does. *)
Definition edge (w : list vec) (i : nat) : vec :=
  let n := length w in
  vsub (point_at w ((i + 1) mod n)) (point_at w (i mod n)).

(** [cumulative_angle] after the first [m] rounds of the loop. *)
Definition partial_turning (w : list vec) (m : nat) : np_float :=
  fold_left (fun cumulative_angle i => Np.add cumulative_angle (turning_angle w i))
            (seq 0 m) (Fin 0).

(** No vertex of the closed polygon [w] equals its successor, the successor
    of the last vertex being the first. *)
Definition consecutive_distinct (w : list vec) : Prop :=
  forall i : nat, (i < length w)%nat ->
    point_at w i <> point_at w ((i + 1) mod length w).

(** The test of line 38 on one coordinate, [a] from the first point and [b]
    from the last: [rtol = 1e-8] as passed, [atol = 1e-8] by default. *)
Definition np_close_1e8 (a b : R) : Prop :=
  Rabs (a - b) <= 1e-8 + 1e-8 * Rabs b.

(** The specification's wording of the same test: the two coordinates
    coincide under a relative tolerance of 1e-8, with no absolute term. *)
Definition spec_relative_close (a b : R) : Prop :=
  Rabs (a - b) <= 1e-8 * Rmax (Rabs a) (Rabs b).

(** The polygons of [test_compute_total_angle]. *)
Definition ccw_triangle : list vec := [(0, 0); (1, 0); (1, 1)].
Definition ccw_square_closed : list vec := [(0, 0); (1, 0); (1, 1); (0, 1); (0, 0)].

(** The negation of a float, and the sum of a list of floats. *)
Definition np_neg (a : np_float) : np_float := Np.lift1 Ropp a.
Definition np_sum (l : list np_float) : np_float := fold_right Np.add (Fin 0) l.

(** Determinant and dot product of two vectors as given, before any
    normalization. *)
Definition cross_raw (v1 v2 : vec) : R := fst v1 * snd v2 - snd v1 * fst v2.
Definition dot_raw (v1 v2 : vec) : R := fst v1 * fst v2 + snd v1 * snd v2.

(** The point [p] moved by the vector [d]. *)
Definition translate (d p : vec) : vec := (fst p + fst d, snd p + snd d).

(** The third polygon of [test_compute_total_angle]. *)
Definition nonconvex_polygon : list vec := [(0, 0); (1, 0); (1, -1); (2, 0); (2, 10)].

(** ** Norm and normalization *)

Section Norm.

Variable v : vec.

Lemma norm_sqr : Np.norm v * Np.norm v = fst v * fst v + snd v * snd v.
Proof.
  unfold Np.norm. apply sqrt_sqrt. destruct v as [x y]; simpl; nra.
Qed.

Lemma normalize_nan_iff : normalize v = (NaN, NaN) <-> Np.norm v = 0.
Proof.
  unfold normalize. destruct (Req_dec_T (Np.norm v) 0) as [E | E].
  - tauto.
  - split; [discriminate | contradiction].
Qed.

Hypothesis v_nonzero : v <> (0, 0).

Lemma sum_squares_pos : 0 < fst v * fst v + snd v * snd v.
Proof.
  destruct v as [x y]; simpl.
  destruct (Req_dec_T x 0) as [-> | Hx].
  - destruct (Req_dec_T y 0) as [-> | Hy]; [congruence | nra].
  - nra.
Qed.

Lemma norm_pos : 0 < Np.norm v.
Proof. unfold Np.norm. apply sqrt_lt_R0, sum_squares_pos. Qed.

Lemma normalize_nonzero :
  normalize v = (Fin (fst v / Np.norm v), Fin (snd v / Np.norm v)).
Proof.
  unfold normalize. pose proof norm_pos.
  destruct (Req_dec_T (Np.norm v) 0) as [E | _]; [lra | reflexivity].
Qed.

Lemma unit_normalized :
  (fst v / Np.norm v) * (fst v / Np.norm v)
  + (snd v / Np.norm v) * (snd v / Np.norm v) = 1.
Proof.
  pose proof norm_pos as Hn. pose proof norm_sqr as Hs.
  field_simplify_eq; [| lra]. lra.
Qed.

End Norm.

Lemma vec_eq_dec (u v : vec) : {u = v} + {u <> v}.
Proof.
  destruct u as [a b], v as [c d].
  destruct (Req_dec_T a c) as [-> | H]; [| right; congruence].
  destruct (Req_dec_T b d) as [-> | H]; [left; reflexivity | right; congruence].
Qed.

Lemma norm_eq_0 (v : vec) : Np.norm v = 0 <-> v = (0, 0).
Proof.
  split.
  - intros H. destruct (vec_eq_dec v (0, 0)) as [E | E]; [exact E |].
    pose proof (norm_pos v E). lra.
  - intros ->. unfold Np.norm; simpl. rewrite Rmult_0_l, Rplus_0_l. apply sqrt_0.
Qed.

Lemma normalize_zero : normalize (0, 0) = (NaN, NaN).
Proof. apply normalize_nan_iff, norm_eq_0. reflexivity. Qed.

Lemma vec_neq (a b c d : R) : a <> c \/ b <> d -> (a, b) <> (c, d).
Proof. intros [H | H] E; apply H; congruence. Qed.

Lemma vsub_nonzero (p q : vec) : p <> q -> vsub p q <> (0, 0).
Proof.
  intros H E. apply H. destruct p as [a b], q as [c d].
  unfold vsub in E; cbn [fst snd] in E. injection E as E1 E2. f_equal; lra.
Qed.

(** ** The signed angle *)

Lemma turn_sign_Fin (c : R) : turn_sign (Fin c) = Fin (tie_sign c).
Proof.
  unfold turn_sign, tie_sign, Np.sign, Np.lift1, Np.sign_R, Np.eqb.
  destruct (Rlt_dec 0 c), (Rlt_dec c 0);
    repeat match goal with |- context [Req_dec_T ?a ?b] => destruct (Req_dec_T a b) end;
    try reflexivity; try lra.
Qed.

Lemma tie_sign_opp (c : R) : c <> 0 -> tie_sign (- c) = - tie_sign c.
Proof.
  intros Hc. unfold tie_sign.
  destruct (Rlt_dec (- c) 0), (Rlt_dec c 0); lra.
Qed.

Lemma tie_sign_unit (c : R) : tie_sign c = 1 \/ tie_sign c = -1.
Proof. unfold tie_sign. destruct (Rlt_dec c 0); auto. Qed.

Lemma clamp_R_bounds (d : R) : -1 <= clamp_R d <= 1.
Proof.
  unfold clamp_R.
  apply Rmax_case_strong; apply Rmin_case_strong; intros; lra.
Qed.

Lemma clamp_R_id (d : R) : -1 <= d <= 1 -> clamp_R d = d.
Proof.
  intros H. unfold clamp_R.
  rewrite Rmin_left by lra. rewrite Rmax_left by lra. reflexivity.
Qed.

Lemma clamp_Fin (d : R) : clamp (Fin d) = Fin (clamp_R d).
Proof. reflexivity. Qed.

Lemma arccos_Fin (d : R) : -1 <= d <= 1 -> Np.arccos (Fin d) = Fin (acos d).
Proof.
  intros H. unfold Np.arccos.
  destruct (Rle_dec (-1) d); [| lra]. destruct (Rle_dec d 1); [reflexivity | lra].
Qed.

Lemma angle_between_nan_l (v2 : vec) : angle_between (0, 0) v2 = NaN.
Proof.
  unfold angle_between. rewrite normalize_zero.
  destruct (normalize v2) as [[a|] [b|]]; reflexivity.
Qed.

Lemma angle_between_nan_r (v1 : vec) : angle_between v1 (0, 0) = NaN.
Proof.
  unfold angle_between. rewrite normalize_zero.
  destruct (normalize v1) as [[a|] [b|]]; reflexivity.
Qed.

Lemma angle_between_Fin_inv (v1 v2 : vec) (a : R) :
  angle_between v1 v2 = Fin a -> v1 <> (0, 0) /\ v2 <> (0, 0).
Proof.
  intros H. split; intros ->.
  - rewrite angle_between_nan_l in H; discriminate.
  - rewrite angle_between_nan_r in H; discriminate.
Qed.

Section TwoVectors.

Variables v1 v2 : vec.
Hypothesis v1_nonzero : v1 <> (0, 0).
Hypothesis v2_nonzero : v2 <> (0, 0).

Lemma det_normalize :
  Np.det (normalize v1) (normalize v2) = Fin (cross_R (unit_of v1) (unit_of v2)).
Proof.
  rewrite (normalize_nonzero v1 v1_nonzero), (normalize_nonzero v2 v2_nonzero).
  reflexivity.
Qed.

Lemma dot_normalize :
  Np.dot (normalize v1) (normalize v2) = Fin (dot_R (unit_of v1) (unit_of v2)).
Proof.
  rewrite (normalize_nonzero v1 v1_nonzero), (normalize_nonzero v2 v2_nonzero).
  reflexivity.
Qed.

(** Away from nan the function is sign times arc cosine on reals. *)
Lemma angle_between_nonzero :
  angle_between v1 v2
  = Fin (tie_sign (cross_R (unit_of v1) (unit_of v2))
         * acos (clamp_R (dot_R (unit_of v1) (unit_of v2)))).
Proof.
  unfold angle_between. cbv zeta. rewrite det_normalize, dot_normalize.
  rewrite turn_sign_Fin, clamp_Fin, arccos_Fin by apply clamp_R_bounds.
  reflexivity.
Qed.

Lemma cross_unit_of :
  cross_R (unit_of v1) (unit_of v2)
  = (fst v1 * snd v2 - snd v1 * fst v2) / (Np.norm v1 * Np.norm v2).
Proof.
  pose proof (norm_pos v1 v1_nonzero). pose proof (norm_pos v2 v2_nonzero).
  unfold cross_R, unit_of; cbn [fst snd]. field; lra.
Qed.

Lemma det_normalize_zero_iff :
  Np.det (normalize v1) (normalize v2) = Fin 0
  <-> fst v1 * snd v2 - snd v1 * fst v2 = 0.
Proof.
  rewrite det_normalize, cross_unit_of.
  pose proof (norm_pos v1 v1_nonzero) as N1. pose proof (norm_pos v2 v2_nonzero) as N2.
  assert (0 < / (Np.norm v1 * Np.norm v2)) as N by (apply Rinv_0_lt_compat; nra).
  split.
  - intros [= E]. unfold Rdiv in E. apply Rmult_integral in E. destruct E; lra.
  - intros ->. f_equal. unfold Rdiv. ring.
Qed.

Lemma dot_unit_bounds : -1 <= dot_R (unit_of v1) (unit_of v2) <= 1.
Proof.
  pose proof (unit_normalized v1 v1_nonzero) as U1.
  pose proof (unit_normalized v2 v2_nonzero) as U2.
  unfold dot_R, unit_of; cbn [fst snd].
  set (a := fst v1 / Np.norm v1) in *. set (b := snd v1 / Np.norm v1) in *.
  set (c := fst v2 / Np.norm v2) in *. set (d := snd v2 / Np.norm v2) in *.
  pose proof (Rle_0_sqr (a - c)) as P1. pose proof (Rle_0_sqr (b - d)) as P2.
  pose proof (Rle_0_sqr (a + c)) as P3. pose proof (Rle_0_sqr (b + d)) as P4.
  unfold Rsqr in *. split; lra.
Qed.

(** Lagrange's identity on unit vectors. *)
Lemma dot_cross_unit :
  dot_R (unit_of v1) (unit_of v2) * dot_R (unit_of v1) (unit_of v2)
  + cross_R (unit_of v1) (unit_of v2) * cross_R (unit_of v1) (unit_of v2) = 1.
Proof.
  pose proof (unit_normalized v1 v1_nonzero) as U1.
  pose proof (unit_normalized v2 v2_nonzero) as U2.
  unfold dot_R, cross_R, unit_of; cbn [fst snd].
  set (a := fst v1 / Np.norm v1) in *. set (b := snd v1 / Np.norm v1) in *.
  set (c := fst v2 / Np.norm v2) in *. set (d := snd v2 / Np.norm v2) in *.
  replace (_ + _) with ((a * a + b * b) * (c * c + d * d)) by ring.
  rewrite U1, U2; ring.
Qed.

(** Cosine and sine of the returned angle are the dot product and the
    determinant of the unit vectors. *)
Lemma cos_sin_angle (a : R) :
  a = tie_sign (cross_R (unit_of v1) (unit_of v2))
      * acos (clamp_R (dot_R (unit_of v1) (unit_of v2))) ->
  cos a = dot_R (unit_of v1) (unit_of v2) /\ sin a = cross_R (unit_of v1) (unit_of v2).
Proof.
  intros ->. pose proof dot_unit_bounds as Hb. pose proof dot_cross_unit as Hl.
  set (d := dot_R (unit_of v1) (unit_of v2)) in *.
  set (c := cross_R (unit_of v1) (unit_of v2)) in *.
  rewrite clamp_R_id by assumption.
  assert (sqrt (1 - d²) = Rabs c) as Hs.
  { replace (1 - d²) with (c²) by (unfold Rsqr; lra). apply sqrt_Rsqr_abs. }
  unfold tie_sign. destruct (Rlt_dec c 0) as [Hc | Hc].
  - replace (-1 * acos d) with (- acos d) by ring.
    rewrite cos_neg, sin_neg, cos_acos, sin_acos, Hs by assumption.
    rewrite Rabs_left by assumption. split; ring.
  - rewrite Rmult_1_l, cos_acos, sin_acos, Hs by assumption.
    rewrite Rabs_right by lra. split; reflexivity.
Qed.

End TwoVectors.

(** ** Vectors by length and argument *)

Lemma cos2_sin2 (x : R) : cos x * cos x + sin x * sin x = 1.
Proof. pose proof (sin2_cos2 x) as H. unfold Rsqr in H. lra. Qed.

Lemma norm_polar (r theta : R) : 0 <= r -> Np.norm (polar r theta) = r.
Proof.
  intros Hr. unfold Np.norm, polar; cbn [fst snd].
  replace (_ + _) with ((cos theta * cos theta + sin theta * sin theta) * (r * r)) by ring.
  rewrite cos2_sin2, Rmult_1_l. apply sqrt_square, Hr.
Qed.

Lemma polar_nonzero (r theta : R) : 0 < r -> polar r theta <> (0, 0).
Proof.
  intros Hr E. apply norm_eq_0 in E. rewrite norm_polar in E; lra.
Qed.

Lemma unit_of_polar (r theta : R) :
  0 < r -> unit_of (polar r theta) = (cos theta, sin theta).
Proof.
  intros Hr. unfold unit_of. rewrite norm_polar by lra.
  unfold polar; cbn [fst snd]. f_equal; field; lra.
Qed.

(** Every unit vector is a point of the unit circle. *)
Lemma unit_has_argument (x y : R) :
  x * x + y * y = 1 -> exists theta, x = cos theta /\ y = sin theta.
Proof.
  intros H.
  assert (-1 <= x <= 1) as Hx by (split; nra).
  assert (sqrt (1 - x²) = Rabs y) as Hs.
  { replace (1 - x²) with (y²) by (unfold Rsqr; lra). apply sqrt_Rsqr_abs. }
  destruct (Rlt_dec y 0) as [Hy | Hy].
  - exists (- acos x). rewrite cos_neg, sin_neg, cos_acos, sin_acos, Hs by assumption.
    rewrite Rabs_left by assumption. split; ring.
  - exists (acos x). rewrite cos_acos, sin_acos, Hs by assumption.
    rewrite Rabs_right by lra. split; reflexivity.
Qed.

Lemma polar_form (v : vec) : v <> (0, 0) -> exists theta, v = polar (Np.norm v) theta.
Proof.
  intros H. pose proof (norm_pos v H) as Hn.
  destruct (unit_has_argument _ _ (unit_normalized v H)) as (theta & Hx & Hy).
  exists theta. unfold polar. rewrite <- Hx, <- Hy. destruct v as [x y]; cbn [fst snd].
  f_equal; field; lra.
Qed.

Lemma scale_polar (c r theta : R) :
  scale c (polar r theta) = polar (- c * r) (theta + PI).
Proof.
  unfold scale, polar; cbn [fst snd]. rewrite neg_cos, neg_sin. f_equal; ring.
Qed.

Section Directions.

Variables r1 r2 a b : R.
Hypothesis r1_pos : 0 < r1.
Hypothesis r2_pos : 0 < r2.
Hypothesis turn_in_range : - PI < b - a <= PI.

(** The angle between two vectors given by length and argument is the
    difference of the arguments, when that difference is in (-pi, pi]. *)
Lemma angle_between_polar : angle_between (polar r1 a) (polar r2 b) = Fin (b - a).
Proof.
  rewrite angle_between_nonzero by (apply polar_nonzero; assumption).
  rewrite !unit_of_polar by assumption.
  replace (cross_R (cos a, sin a) (cos b, sin b)) with (sin (b - a))
    by (unfold cross_R; cbn [fst snd]; rewrite sin_minus; ring).
  replace (dot_R (cos a, sin a) (cos b, sin b)) with (cos (b - a))
    by (unfold dot_R; cbn [fst snd]; rewrite cos_minus; ring).
  rewrite clamp_R_id by (pose proof (COS_bound (b - a)); lra).
  f_equal. unfold tie_sign.
  destruct (Rlt_dec (sin (b - a)) 0) as [Hs | Hs].
  - assert (b - a < 0) as Hneg.
    { destruct (Rlt_dec (b - a) 0) as [? | Hge]; [assumption | exfalso].
      assert (0 <= sin (b - a)); [apply sin_ge_0; lra | lra]. }
    rewrite <- (cos_neg (b - a)). rewrite acos_cos by lra. ring.
  - assert (0 <= b - a) as Hpos.
    { destruct (Rle_dec 0 (b - a)) as [? | Hlt]; [assumption | exfalso].
      apply Hs. apply sin_lt_0_var; lra. }
    rewrite acos_cos by lra. ring.
Qed.

Lemma angle_between_directions (v1 v2 : vec) :
  v1 = polar r1 a -> v2 = polar r2 b -> angle_between v1 v2 = Fin (b - a).
Proof. intros -> ->. apply angle_between_polar. Qed.

End Directions.

Lemma angle_between_antiparallel (v : vec) (c : R) :
  v <> (0, 0) -> c < 0 -> angle_between v (scale c v) = Fin PI.
Proof.
  intros Hv Hc. destruct (polar_form v Hv) as [theta E].
  pose proof (norm_pos v Hv) as Hn. pose proof PI_RGT_0 as Hpi.
  rewrite E at 2. rewrite scale_polar. rewrite E at 1.
  rewrite angle_between_polar; [f_equal; ring | lra | nra | lra].
Qed.

Lemma angle_between_same (v : vec) : v <> (0, 0) -> angle_between v v = Fin 0.
Proof.
  intros Hv. destruct (polar_form v Hv) as [theta E].
  pose proof (norm_pos v Hv) as Hn. pose proof PI_RGT_0 as Hpi.
  rewrite E. rewrite angle_between_polar; [f_equal; ring | lra | lra | lra].
Qed.

(** Turning by the returned angle takes the direction of [v1] to the
    direction of [v2]. *)
Lemma angle_between_rotates (v1 v2 : vec) (a theta : R) :
  angle_between v1 v2 = Fin a ->
  unit_of v1 = (cos theta, sin theta) ->
  unit_of v2 = (cos (theta + a), sin (theta + a)).
Proof.
  intros Ha Hu. destruct (angle_between_Fin_inv _ _ _ Ha) as [H1 H2].
  rewrite angle_between_nonzero in Ha by assumption. injection Ha as Ha.
  destruct (cos_sin_angle v1 v2 H1 H2 a (eq_sym Ha)) as [Hc Hs].
  pose proof (unit_normalized v1 H1) as U1.
  rewrite cos_plus, sin_plus, Hc, Hs.
  unfold dot_R, cross_R.
  assert (fst (unit_of v1) = cos theta) as E1 by (rewrite Hu; reflexivity).
  assert (snd (unit_of v1) = sin theta) as E2 by (rewrite Hu; reflexivity).
  rewrite <- E1, <- E2. unfold unit_of in *; cbn [fst snd] in *.
  set (p := fst v1 / Np.norm v1) in *. set (q := snd v1 / Np.norm v1) in *.
  set (c := fst v2 / Np.norm v2) in *. set (d := snd v2 / Np.norm v2) in *.
  f_equal.
  - replace (p * (p * c + q * d) - q * (p * d - q * c)) with ((p * p + q * q) * c) by ring.
    rewrite U1; ring.
  - replace (q * (p * c + q * d) + p * (p * d - q * c)) with ((p * p + q * q) * d) by ring.
    rewrite U1; ring.
Qed.

Lemma cos_eq_1_full_turns (x : R) : cos x = 1 -> exists k : Z, x = 2 * PI * IZR k.
Proof.
  intros H.
  assert (sin (x / 2) = 0) as Hs.
  { pose proof (cos_2a_sin (x / 2)) as E.
    replace (2 * (x / 2)) with x in E by field. rewrite H in E.
    assert (sin (x / 2) * sin (x / 2) = 0) as Z by lra.
    apply Rmult_integral in Z. tauto. }
  destruct (sin_eq_0_0 _ Hs) as [k Hk]. exists k. lra.
Qed.

(** ** The loop of [compute_total_angle] *)

Lemma add_Fin_inv (x y : np_float) (t : R) :
  Np.add x y = Fin t -> exists s a, x = Fin s /\ y = Fin a /\ t = s + a.
Proof.
  destruct x as [s |], y as [a |]; cbn; try discriminate.
  intros [= <-]. eauto.
Qed.

Section Loop.

Variable w : list vec.

Lemma sum_turning_angles_partial :
  sum_turning_angles w = partial_turning w (length w).
Proof. reflexivity. Qed.

Lemma partial_turning_S (m : nat) :
  partial_turning w (S m) = Np.add (partial_turning w m) (turning_angle w m).
Proof.
  unfold partial_turning. rewrite seq_S, fold_left_app. reflexivity.
Qed.

Lemma turning_angle_edges (i : nat) :
  (i < length w)%nat ->
  turning_angle w i = angle_between (edge w i) (edge w (i + 1)).
Proof.
  intros Hi. unfold turning_angle, edge. cbv zeta.
  rewrite (Nat.mod_small i) by assumption.
  replace (i + 1 + 1)%nat with (i + 2)%nat by lia. reflexivity.
Qed.

(** After the last vertex the edges start over. *)
Lemma edge_wraps : edge w (length w) = edge w 0.
Proof.
  unfold edge. cbv zeta. destruct w as [| p l]; [reflexivity |].
  set (n := length (p :: l)).
  rewrite Nat.Div0.mod_same, (Nat.Div0.mod_0_l n).
  replace ((n + 1) mod n)%nat with ((0 + 1) mod n)%nat; [reflexivity |].
  rewrite <- (Nat.Div0.mod_add (0 + 1) 1 n). f_equal. lia.
Qed.

(** A finite running total has only finite totals before it. *)
Lemma partial_turning_Fin_le (n m : nat) (t : R) :
  (m <= n)%nat -> partial_turning w n = Fin t ->
  exists s, partial_turning w m = Fin s.
Proof.
  intros Hle. revert t. induction Hle as [| n Hle IH]; intros t H.
  - eauto.
  - rewrite partial_turning_S in H.
    destruct (add_Fin_inv _ _ _ H) as (s & a & Hs & _ & _). eauto.
Qed.

(** Invariant of the loop: after [m] rounds the running total is the
    argument of edge [m] relative to edge 0. *)
Lemma directions_along (theta0 : R) :
  unit_of (edge w 0) = (cos theta0, sin theta0) ->
  forall (m : nat) (s : R),
    (m <= length w)%nat -> partial_turning w m = Fin s ->
    unit_of (edge w m) = (cos (theta0 + s), sin (theta0 + s)).
Proof.
  intros H0. induction m as [| m IH]; intros s Hm Hs.
  - injection Hs as <-. rewrite Rplus_0_r. exact H0.
  - rewrite partial_turning_S in Hs.
    destruct (add_Fin_inv _ _ _ Hs) as (s' & a & Hs' & Ha & ->).
    rewrite turning_angle_edges in Ha by lia.
    replace (S m) with (m + 1)%nat by lia.
    rewrite <- Rplus_assoc.
    apply (angle_between_rotates _ _ _ _ Ha). apply IH; [lia | assumption].
Qed.

(** The turning angles around a closed polygon add up to a whole number
    of turns. *)
Lemma sum_turning_angles_full_turns (t : R) :
  sum_turning_angles w = Fin t -> exists k : Z, t = 2 * PI * IZR k.
Proof.
  rewrite sum_turning_angles_partial. intros Ht.
  destruct (Nat.eq_dec (length w) 0) as [E | Hn].
  - rewrite E in Ht. injection Ht as <-. exists 0%Z. simpl; ring.
  - destruct (partial_turning_Fin_le (length w) 1 t ltac:(lia) Ht) as [s1 Hs1].
    rewrite partial_turning_S in Hs1.
    destruct (add_Fin_inv _ _ _ Hs1) as (_ & a & _ & Ha & _).
    rewrite turning_angle_edges in Ha by lia.
    destruct (angle_between_Fin_inv _ _ _ Ha) as [Hnz _].
    destruct (unit_has_argument _ _ (unit_normalized _ Hnz)) as (theta0 & Hx & Hy).
    assert (unit_of (edge w 0) = (cos theta0, sin theta0)) as H0.
    { unfold unit_of. rewrite Hx, Hy. reflexivity. }
    pose proof (directions_along theta0 H0 (length w) t (le_n _) Ht) as Hend.
    rewrite edge_wraps, H0 in Hend. injection Hend as Hc Hs.
    apply cos_eq_1_full_turns.
    replace t with ((theta0 + t) - theta0) by ring.
    rewrite cos_minus, <- Hc, <- Hs. apply cos2_sin2.
Qed.

Hypothesis distinct : consecutive_distinct w.

Lemma turning_angle_distinct (i : nat) :
  (i < length w)%nat -> exists a, turning_angle w i = Fin a.
Proof.
  intros Hi. unfold turning_angle. cbv zeta.
  assert (length w <> 0)%nat as Hn by lia.
  eexists. apply angle_between_nonzero.
  - apply vsub_nonzero. intros E. apply (distinct i Hi). symmetry; exact E.
  - apply vsub_nonzero. intros E.
    apply (distinct ((i + 1) mod length w)%nat).
    + apply Nat.mod_upper_bound; assumption.
    + rewrite Nat.Div0.add_mod_idemp_l.
      replace (i + 1 + 1)%nat with (i + 2)%nat by lia.
      symmetry; exact E.
Qed.

Lemma partial_turning_distinct (m : nat) :
  (m <= length w)%nat -> exists s, partial_turning w m = Fin s.
Proof.
  induction m as [| m IH]; intros Hm.
  - exists 0. reflexivity.
  - destruct IH as [s Hs]; [lia |].
    destruct (turning_angle_distinct m) as [a Ha]; [lia |].
    rewrite partial_turning_S, Hs, Ha. eexists; reflexivity.
Qed.

End Loop.

(** ** Rounding and closeness *)

Lemma rint_IZR (k : Z) : Np.rint (IZR k) = k.
Proof.
  unfold Np.rint. rewrite ZfloorZ.
  destruct (Rlt_dec (IZR k - IZR k) (1 / 2)); [reflexivity | lra].
Qed.

Lemma rint_below_half (x : R) (k : Z) :
  IZR k <= x < IZR k + 1 / 2 -> Np.rint x = k.
Proof.
  intros H. unfold Np.rint. rewrite (Zfloor_eq k) by lra.
  destruct (Rlt_dec (x - IZR k) (1 / 2)); [reflexivity | lra].
Qed.

Lemma rint_half_bound (x : R) : Rabs (IZR (Np.rint x) - x) <= 1 / 2.
Proof.
  unfold Np.rint. pose proof (Zfloor_bound x) as [Hl Hu].
  destruct (Rlt_dec (x - IZR (Zfloor x)) (1 / 2)) as [H1 | H1].
  - rewrite Rabs_left1 by lra. lra.
  - assert (Rabs (IZR (Zfloor x + 1) - x) <= 1 / 2) as Hup.
    { rewrite plus_IZR. rewrite Rabs_right by lra. lra. }
    destruct (Rlt_dec (1 / 2) (x - IZR (Zfloor x))) as [H2 | H2]; [exact Hup |].
    destruct (Z.even (Zfloor x)); [| exact Hup].
    rewrite Rabs_left1 by lra. lra.
Qed.

(** [rint x] is an integer nearest to [x]. *)
Lemma rint_nearest (x : R) (z : Z) :
  Rabs (IZR (Np.rint x) - x) <= Rabs (IZR z - x).
Proof.
  pose proof (rint_half_bound x) as Hh.
  destruct (Z.eq_dec z (Np.rint x)) as [-> | Hne]; [lra |].
  destruct (Rle_dec (Rabs (IZR z - x)) (1 / 2)) as [Hz | Hz]; [| lra].
  assert (1 <= Rabs (IZR z - IZR (Np.rint x))) as Hd.
  { rewrite <- minus_IZR. rewrite <- abs_IZR. apply IZR_le. lia. }
  assert (Rabs (IZR z - IZR (Np.rint x))
          <= Rabs (IZR z - x) + Rabs (IZR (Np.rint x) - x)) as Ht.
  { replace (IZR z - IZR (Np.rint x))
      with ((IZR z - x) + - (IZR (Np.rint x) - x)) by ring.
    eapply Rle_trans; [apply Rabs_triang |]. rewrite Rabs_Ropp. lra. }
  lra.
Qed.

Lemma round_R_IZR (k : Z) (decimals : nat) : Np.round_R (IZR k) decimals = IZR k.
Proof.
  unfold Np.round_R.
  replace 10 with (IZR 10) by reflexivity.
  rewrite pow_IZR, <- mult_IZR, rint_IZR, mult_IZR.
  field. rewrite <- pow_IZR. apply pow_nonzero. apply not_0_IZR. lia.
Qed.

Section IsClose.

Variables a b rtol atol : R.

Lemma isclose_R_iff :
  Np.isclose_R a b rtol atol = true <-> Rabs (a - b) <= atol + rtol * Rabs b.
Proof.
  unfold Np.isclose_R.
  destruct (Rle_dec (Rabs (a - b)) (atol + rtol * Rabs b));
    split; auto; discriminate.
Qed.

Lemma isclose_R_false_iff :
  Np.isclose_R a b rtol atol = false <-> atol + rtol * Rabs b < Rabs (a - b).
Proof.
  unfold Np.isclose_R.
  destruct (Rle_dec (Rabs (a - b)) (atol + rtol * Rabs b));
    split; intros; try lra; try discriminate; reflexivity.
Qed.

End IsClose.

Lemma isclose_R_refl (x rtol atol : R) :
  0 <= rtol -> 0 <= atol -> Np.isclose_R x x rtol atol = true.
Proof.
  intros Hr Ha. apply isclose_R_iff.
  replace (x - x) with 0 by ring. rewrite Rabs_R0.
  pose proof (Rabs_pos x). nra.
Qed.

Lemma closes_on_first_iff (points : list vec) :
  closes_on_first points = true <->
  np_close_1e8 (fst (point_at points 0)) (fst (last points (0, 0)))
  /\ np_close_1e8 (snd (point_at points 0)) (snd (last points (0, 0))).
Proof.
  unfold closes_on_first, np_close_1e8. cbv zeta.
  rewrite andb_true_iff, !isclose_R_iff. unfold Np.default_atol. tauto.
Qed.

Lemma removelast_length (A : Type) (l : list A) :
  l <> [] -> length (removelast l) = pred (length l).
Proof.
  intros H. destruct (exists_last H) as (l' & x & ->).
  rewrite removelast_last, length_app. simpl. lia.
Qed.

(** ** The rotation count *)

(** The raw rotation count is the total angle over a full turn. *)
Lemma raw_count (t : R) : 180 * t / Np.pi / 360 = t / (2 * PI).
Proof. unfold Np.pi. field. apply PI_neq0. Qed.

Lemma rotations_of_full_turns (k : Z) :
  rotations_of_total_angle (Fin (2 * PI * IZR k)) = Returned (Fin (IZR k)).
Proof.
  unfold rotations_of_total_angle, rad_to_deg. cbn [Np.lift1 Np.round Np.isclose].
  rewrite raw_count.
  replace (2 * PI * IZR k / (2 * PI)) with (IZR k) by (field; apply PI_neq0).
  rewrite !round_R_IZR.
  rewrite isclose_R_refl by (unfold Np.default_rtol; lra). reflexivity.
Qed.

Lemma rotations_of_total_angle_fails (t : R) :
  rotations_of_total_angle (Fin t) = AssertionError <->
  1e-8 + 1e-5 * Rabs (t / (2 * PI))
  < Rabs (Np.round_R (t / (2 * PI)) 3 - t / (2 * PI)).
Proof.
  unfold rotations_of_total_angle, rad_to_deg. cbn [Np.lift1 Np.round Np.isclose].
  rewrite raw_count. rewrite <- isclose_R_false_iff. fold Np.default_rtol.
  destruct (Np.isclose_R _ _ _ _); split; intros; try discriminate; reflexivity.
Qed.

(** ** Evaluation on concrete polygons *)

Lemma sqrt2_pos : 0 < sqrt 2.
Proof. apply sqrt_lt_R0; lra. Qed.

Ltac solve_abs :=
  unfold Np.default_atol, Np.default_rtol, Rabs;
  repeat match goal with |- context [Rcase_abs ?x] => destruct (Rcase_abs x) end;
  lra.

Ltac trig_values :=
  rewrite ?cos_neg, ?sin_neg, ?cos_0, ?sin_0, ?cos_PI2, ?sin_PI2, ?cos_PI, ?sin_PI,
          ?cos_2PI, ?sin_2PI, ?cos_3PI2, ?sin_3PI2, ?cos_PI4, ?sin_PI4,
          ?cos_5PI4, ?sin_5PI4.

Ltac in_polar_form :=
  unfold polar, vsub, point_at; cbn [nth fst snd]; trig_values;
  f_equal; (lra || (field; apply Rgt_not_eq, sqrt2_pos)).

(** Rewrites the next [angle_between] of the goal, given length and
    argument of its two vectors. *)
Ltac turning r1 a r2 b :=
  rewrite (angle_between_directions r1 r2 a b);
  [ | lra || apply sqrt2_pos | lra || apply sqrt2_pos
    | pose proof PI_RGT_0; lra
    | in_polar_form | in_polar_form ].

Ltac unroll_loop :=
  unfold sum_turning_angles, turning_angle;
  cbn [length seq fold_left Nat.modulo Nat.divmod Nat.add Nat.sub fst snd].

Lemma ccw_triangle_untrimmed : trim_closing_point ccw_triangle = ccw_triangle.
Proof.
  unfold trim_closing_point, closes_on_first, ccw_triangle, point_at.
  cbn [nth last fst snd].
  replace (Np.isclose_R 0 1 1e-8 Np.default_atol) with false
    by (symmetry; apply isclose_R_false_iff; solve_abs).
  reflexivity.
Qed.

Lemma ccw_triangle_total_angle :
  compute_total_angle ccw_triangle = Returned (Fin (2 * PI)).
Proof.
  unfold compute_total_angle. rewrite ccw_triangle_untrimmed.
  unfold ccw_triangle. cbn [length Nat.ltb Nat.leb]. unroll_loop.
  turning 1 0 1 (PI / 2).
  turning 1 (PI / 2) (sqrt 2) (5 * (PI / 4)).
  turning (sqrt 2) (5 * (PI / 4)) 1 (2 * PI).
  cbn. do 2 f_equal. lra.
Qed.

Lemma cw_triangle_total_angle :
  compute_total_angle (rev ccw_triangle) = Returned (Fin (- (2 * PI))).
Proof.
  unfold compute_total_angle, ccw_triangle. cbn [rev app length Nat.ltb Nat.leb].
  unfold trim_closing_point, closes_on_first, point_at. cbn [nth last fst snd].
  replace (Np.isclose_R 1 0 1e-8 Np.default_atol) with false
    by (symmetry; apply isclose_R_false_iff; solve_abs).
  cbn [andb]. unroll_loop.
  turning 1 (- (PI / 2)) 1 (- PI).
  turning 1 PI (sqrt 2) (PI / 4).
  turning (sqrt 2) (PI / 4) 1 (- (PI / 2)).
  cbn. do 2 f_equal. lra.
Qed.

Lemma ccw_square_total_angle :
  compute_total_angle ccw_square_closed = Returned (Fin (2 * PI)).
Proof.
  unfold compute_total_angle, ccw_square_closed. cbn [length Nat.ltb Nat.leb].
  unfold trim_closing_point, closes_on_first, point_at. cbn [nth last fst snd].
  rewrite !isclose_R_refl by (unfold Np.default_atol; lra).
  cbn [andb removelast]. unroll_loop.
  turning 1 0 1 (PI / 2).
  turning 1 (PI / 2) 1 PI.
  turning 1 PI 1 (3 * (PI / 2)).
  turning 1 (3 * (PI / 2)) 1 (2 * PI).
  cbn. do 2 f_equal. lra.
Qed.

Lemma ccw_triangle_distinct : consecutive_distinct (trim_closing_point ccw_triangle).
Proof.
  rewrite ccw_triangle_untrimmed. intros i Hi. unfold ccw_triangle, point_at in *.
  cbn [length] in *.
  destruct i as [| [| [| i]]]; [| | | lia];
    cbn [Nat.modulo Nat.divmod Nat.add Nat.sub fst snd nth]; apply vec_neq; lra.
Qed.

(** ** Properties of [compute_n_rotations] *)





(** With exact arithmetic the validation can only fail on nan: a finite
    total angle is a whole number of turns. *)
Lemma compute_n_rotations_fails_iff (points : list vec) :
  compute_n_rotations points = AssertionError <->
  (length points < 3)%nat \/ compute_total_angle points = Returned NaN.
Proof.
  unfold compute_n_rotations, bind, compute_total_angle.
  destruct (2 <? length points)%nat eqn:E.
  - apply Nat.ltb_lt in E.
    destruct (sum_turning_angles (trim_closing_point points)) as [t |] eqn:Ht.
    + destruct (sum_turning_angles_full_turns _ _ Ht) as [k ->].
      rewrite rotations_of_full_turns.
      split; [discriminate | intros [H | H]; [lia | discriminate]].
    + split; [intros _; right; reflexivity | reflexivity].
  - apply Nat.ltb_ge in E. split; [intros _; left; lia | reflexivity].
Qed.

(** ** Properties of [angle_between] *)







(** In the one colinear case where the equation of C5 fails, opposite
    directions, both orders give +pi. *)
Lemma angle_between_opposite_both_orders (v : vec) (c : R) :
  v <> (0, 0) -> c < 0 ->
  angle_between v (scale c v) = Fin PI /\ angle_between (scale c v) v = Fin PI.
Proof.
  intros Hv Hc. split; [apply angle_between_antiparallel; assumption |].
  assert (v = scale (/ c) (scale c v)) as E.
  { unfold scale; destruct v as [x y]; cbn [fst snd]. f_equal; field; lra. }
  rewrite E at 2. apply angle_between_antiparallel.
  - intros Z. apply Hv. rewrite E, Z. unfold scale; cbn [fst snd]. f_equal; ring.
  - apply Rinv_lt_0_compat, Hc.
Qed.

(** ** Properties of [compute_total_angle] *)

(** C6, as the code has it: on an accepted sequence the last point is
    dropped if and only if each coordinate [a] of the first point and [b] of
    the last satisfy [|a - b| <= 1e-8 + 1e-8 * |b|], the relative tolerance
    passed to [np.isclose] plus its default absolute one; otherwise the
    sequence is used unchanged; the angles are summed over the result. *)
Theorem trim_closing_point_tolerance (points : list vec) :
  (2 < length points)%nat ->
  ((np_close_1e8 (fst (point_at points 0)) (fst (last points (0, 0)))
    /\ np_close_1e8 (snd (point_at points 0)) (snd (last points (0, 0))))
   <-> trim_closing_point points = removelast points)
  /\ (~ (np_close_1e8 (fst (point_at points 0)) (fst (last points (0, 0)))
         /\ np_close_1e8 (snd (point_at points 0)) (snd (last points (0, 0))))
      <-> trim_closing_point points = points)
  /\ compute_total_angle points
     = Returned (sum_turning_angles (trim_closing_point points)).
Proof.
  intros Hlen.
  assert (points <> []) as Hne by (intros ->; simpl in Hlen; lia).
  assert (removelast points <> points) as Hneq.
  { intros E. pose proof (removelast_length _ points Hne) as L. rewrite E in L. lia. }
  rewrite <- closes_on_first_iff. unfold compute_total_angle, trim_closing_point.
  apply Nat.ltb_lt in Hlen. rewrite Hlen.
  destruct (closes_on_first points).
  - split; [tauto |]. split; [| reflexivity].
    split; [intros H; exfalso; apply H; reflexivity | intros H; congruence].
  - split; [| split; [| reflexivity]].
    + split; [discriminate | intros H; congruence].
    + split; [reflexivity | intros _; discriminate].
Qed.

Lemma trim_closing_point_tolerance_witness :
  ((np_close_1e8 (fst (point_at ccw_square_closed 0))
                 (fst (last ccw_square_closed (0, 0)))
    /\ np_close_1e8 (snd (point_at ccw_square_closed 0))
                    (snd (last ccw_square_closed (0, 0))))
   <-> trim_closing_point ccw_square_closed = removelast ccw_square_closed)
  /\ (~ (np_close_1e8 (fst (point_at ccw_square_closed 0))
                      (fst (last ccw_square_closed (0, 0)))
         /\ np_close_1e8 (snd (point_at ccw_square_closed 0))
                         (snd (last ccw_square_closed (0, 0))))
      <-> trim_closing_point ccw_square_closed = ccw_square_closed)
  /\ compute_total_angle ccw_square_closed
     = Returned (sum_turning_angles (trim_closing_point ccw_square_closed)).
Proof.
  apply trim_closing_point_tolerance. simpl. lia.
Defined.

(** The last point is dropped although its first coordinate, 1e-9, is not
    within a relative tolerance of 1e-8 of the first point's 0; and when the
    closing point comes twice, one copy stays in the working sequence. *)
Lemma trim_closing_point_not_relative :
  (let points := [(0, 0); (1, 0); (0, 1); (1e-9, 0)] in
   trim_closing_point points = [(0, 0); (1, 0); (0, 1)]
   /\ ~ spec_relative_close (fst (point_at points 0)) (fst (last points (0, 0))))
  /\ (let points := [(0, 0); (1, 0); (0, 1); (0, 0); (0, 0)] in
      let working := trim_closing_point points in
      working = [(0, 0); (1, 0); (0, 1); (0, 0)]
      /\ last working (0, 0) = point_at working 0).
Proof.
  split; cbv zeta.
  - split.
    + unfold trim_closing_point, closes_on_first, point_at. cbn [nth last fst snd].
      replace (Np.isclose_R 0 1e-9 1e-8 Np.default_atol) with true
        by (symmetry; apply isclose_R_iff; solve_abs).
      rewrite isclose_R_refl by (unfold Np.default_atol; lra). reflexivity.
    + unfold spec_relative_close, point_at. cbn [nth last fst snd].
      intros H. revert H. unfold Rmax.
      destruct (Rle_dec (Rabs 0) (Rabs 1e-9)); solve_abs.
  - unfold trim_closing_point, closes_on_first, point_at. cbn [nth last fst snd].
    rewrite !isclose_R_refl by (unfold Np.default_atol; lra).
    cbn. split; reflexivity.
Qed.

(** C7: [compute_total_angle] fails its assertion exactly on sequences of
    fewer than 3 points and returns a value exactly on those of 3 or
    more. *)
Theorem compute_total_angle_length_check (points : list vec) :
  (compute_total_angle points = AssertionError <-> (length points < 3)%nat)
  /\ ((exists angle, compute_total_angle points = Returned angle)
      <-> (3 <= length points)%nat).
Proof.
  unfold compute_total_angle.
  destruct (2 <? length points)%nat eqn:E.
  - apply Nat.ltb_lt in E. split; split; intros H; try discriminate; try lia; eauto.
  - apply Nat.ltb_ge in E. split; split; intros H; try reflexivity; try lia.
    destruct H as [a H]; discriminate.
Qed.

(** C8: the total angle of the counterclockwise triangle is 2 pi, of its
    reversal -2 pi, and of the counterclockwise square given with its
    closing point 2 pi. *)
Theorem total_angle_of_test_polygons :
  compute_total_angle [(0, 0); (1, 0); (1, 1)] = Returned (Fin (2 * PI))
  /\ compute_total_angle (rev [(0, 0); (1, 0); (1, 1)]) = Returned (Fin (- (2 * PI)))
  /\ compute_total_angle [(0, 0); (1, 0); (1, 1); (0, 1); (0, 0)]
     = Returned (Fin (2 * PI)).
Proof.
  split; [exact ccw_triangle_total_angle |].
  split; [exact cw_triangle_total_angle | exact ccw_square_total_angle].
Qed.





(** * Further properties *)

(** ** Sums of floats and reindexing of the loop *)

Lemma np_add_comm (x y : np_float) : Np.add x y = Np.add y x.
Proof. destruct x, y; cbn; try reflexivity. f_equal; ring. Qed.

Lemma np_add_assoc (x y z : np_float) : Np.add x (Np.add y z) = Np.add (Np.add x y) z.
Proof. destruct x, y, z; cbn; try reflexivity. f_equal; ring. Qed.

Lemma sum_turning_angles_np_sum (w : list vec) :
  sum_turning_angles w = np_sum (map (turning_angle w) (seq 0 (length w))).
Proof.
  unfold sum_turning_angles, np_sum.
  rewrite <- (fold_symmetric Np.add np_add_assoc (Fin 0) (np_add_comm (Fin 0))).
  generalize (seq 0 (length w)) (Fin 0).
  induction l as [| i l IH]; intros acc; [reflexivity | cbn; apply IH].
Qed.

Lemma np_sum_Permutation (l l' : list np_float) :
  Permutation l l' -> np_sum l = np_sum l'.
Proof.
  unfold np_sum.
  induction 1 as [| x l l' _ IH | x y l | l l' l'' _ IH1 _ IH2]; cbn.
  - reflexivity.
  - rewrite IH; reflexivity.
  - rewrite !np_add_assoc, (np_add_comm y x). reflexivity.
  - congruence.
Qed.

Lemma np_sum_neg (l : list np_float) : np_sum (map np_neg l) = np_neg (np_sum l).
Proof.
  unfold np_sum. induction l as [| x l IH]; cbn.
  - f_equal; ring.
  - rewrite IH. destruct x, (fold_right Np.add (Fin 0) l); cbn; try reflexivity. f_equal; ring.
Qed.

Lemma reindexed_Permutation (n : nat) (pi : nat -> nat) :
  (forall i, (i < n)%nat -> (pi i < n)%nat) ->
  (forall i j, (i < n)%nat -> (j < n)%nat -> pi i = pi j -> i = j) ->
  Permutation (map pi (seq 0 n)) (seq 0 n).
Proof.
  intros Hb Hinj. apply Permutation_map_same_l.
  - apply Finite.Injective_map_NoDup_in; [| apply seq_NoDup].
    intros x y Hx Hy. apply in_seq in Hx, Hy. apply Hinj; lia.
  - intros x Hx. apply in_map_iff in Hx. destruct Hx as (i & <- & Hi).
    apply in_seq in Hi. apply in_seq. specialize (Hb i). lia.
Qed.

Lemma sum_turning_angles_reindexed (w w' : list vec) (pi : nat -> nat) (g : np_float -> np_float) :
  length w' = length w ->
  (forall i, (i < length w)%nat -> (pi i < length w)%nat) ->
  (forall i j, (i < length w)%nat -> (j < length w)%nat -> pi i = pi j -> i = j) ->
  (forall i, (i < length w)%nat -> turning_angle w' i = g (turning_angle w (pi i))) ->
  np_sum (map (turning_angle w') (seq 0 (length w')))
  = np_sum (map g (map (turning_angle w) (seq 0 (length w)))).
Proof.
  intros Hlen Hb Hinj Ht. rewrite Hlen.
  rewrite (map_ext_in _ (fun i => g (turning_angle w (pi i)))).
  2:{ intros i Hi. apply in_seq in Hi. apply Ht. lia. }
  rewrite <- (map_map pi (fun i => g (turning_angle w i))).
  rewrite <- (map_map (turning_angle w) g).
  apply np_sum_Permutation. do 2 apply Permutation_map.
  apply reindexed_Permutation; assumption.
Qed.

Lemma add_mod_inj (n c i j : nat) :
  (i < n)%nat -> (j < n)%nat -> ((i + c) mod n = (j + c) mod n)%nat -> i = j.
Proof.
  intros Hi Hj E.
  assert (forall x, (x < n)%nat -> x = (((x + c) mod n + (n - c mod n)) mod n)%nat) as R.
  { intros x Hx. assert (n <> 0)%nat by lia.
    rewrite Nat.Div0.add_mod_idemp_l.
    pose proof (Nat.mod_upper_bound c n ltac:(lia)).
    pose proof (Nat.div_mod_eq c n).
    replace (x + c + (n - c mod n))%nat with (x + (c / n + 1) * n)%nat by nia.
    rewrite Nat.Div0.mod_add. symmetry. apply Nat.mod_small. exact Hx. }
  rewrite (R i Hi), (R j Hj), E. reflexivity.
Qed.

(** ** Scaling and swapping the arguments of [angle_between] *)

Lemma scale_nonzero (c : R) (v : vec) : c <> 0 -> v <> (0, 0) -> scale c v <> (0, 0).
Proof.
  intros Hc Hv E. apply Hv. destruct v as [x y]. unfold scale in E; cbn [fst snd] in E.
  injection E as E1 E2. apply Rmult_integral in E1, E2.
  f_equal; tauto.
Qed.

Lemma scale_zero (c : R) : scale c (0, 0) = (0, 0).
Proof. unfold scale; cbn [fst snd]. f_equal; ring. Qed.

Lemma norm_scale (c : R) (v : vec) : Np.norm (scale c v) = Rabs c * Np.norm v.
Proof.
  unfold Np.norm, scale; cbn [fst snd].
  replace (c * fst v * (c * fst v) + c * snd v * (c * snd v))
    with (c² * (fst v * fst v + snd v * snd v)) by (unfold Rsqr; ring).
  rewrite sqrt_mult_alt by apply Rle_0_sqr. rewrite sqrt_Rsqr_abs. reflexivity.
Qed.

Lemma unit_of_scale (c : R) (v : vec) :
  c <> 0 -> v <> (0, 0) -> unit_of (scale c v) = scale (c / Rabs c) (unit_of v).
Proof.
  intros Hc Hv. unfold unit_of. rewrite norm_scale.
  pose proof (norm_pos v Hv). pose proof (Rabs_pos_lt c Hc).
  unfold scale; cbn [fst snd]. f_equal; field; lra.
Qed.

Lemma cross_dot_scale (s1 s2 : R) (u1 u2 : vec) :
  s1 * s2 = 1 ->
  cross_R (scale s1 u1) (scale s2 u2) = cross_R u1 u2
  /\ dot_R (scale s1 u1) (scale s2 u2) = dot_R u1 u2.
Proof.
  intros H. unfold cross_R, dot_R, scale; cbn [fst snd]. split.
  - replace (s1 * fst u1 * (s2 * snd u2) - s1 * snd u1 * (s2 * fst u2))
      with (s1 * s2 * (fst u1 * snd u2 - snd u1 * fst u2)) by ring.
    rewrite H; ring.
  - replace (s1 * fst u1 * (s2 * fst u2) + s1 * snd u1 * (s2 * snd u2))
      with (s1 * s2 * (fst u1 * fst u2 + snd u1 * snd u2)) by ring.
    rewrite H; ring.
Qed.

Lemma angle_between_scaled (c1 c2 : R) (v1 v2 : vec) :
  0 < c1 * c2 -> angle_between (scale c1 v1) (scale c2 v2) = angle_between v1 v2.
Proof.
  intros Hc.
  assert (c1 <> 0) as H1 by (intros ->; lra).
  assert (c2 <> 0) as H2 by (intros ->; lra).
  destruct (vec_eq_dec v1 (0, 0)) as [-> | N1].
  { rewrite scale_zero. rewrite !angle_between_nan_l. reflexivity. }
  destruct (vec_eq_dec v2 (0, 0)) as [-> | N2].
  { rewrite scale_zero. rewrite !angle_between_nan_r. reflexivity. }
  rewrite (angle_between_nonzero v1 v2) by assumption.
  rewrite angle_between_nonzero by (apply scale_nonzero; assumption).
  rewrite !unit_of_scale by assumption.
  assert (c1 / Rabs c1 * (c2 / Rabs c2) = 1) as Hs.
  { pose proof (Rabs_pos_lt c1 H1). pose proof (Rabs_pos_lt c2 H2).
    replace (c1 / Rabs c1 * (c2 / Rabs c2)) with (c1 * c2 / (Rabs c1 * Rabs c2))
      by (field; lra).
    rewrite <- Rabs_mult, (Rabs_right (c1 * c2)) by lra. field; lra. }
  destruct (cross_dot_scale _ _ (unit_of v1) (unit_of v2) Hs) as [-> ->].
  reflexivity.
Qed.

Lemma acos_minus_1 : acos (-1) = PI.
Proof. replace (-1) with (- (1)) by lra. rewrite acos_opp, acos_1. ring. Qed.

Lemma unit_products (v1 v2 : vec) :
  v1 <> (0, 0) -> v2 <> (0, 0) ->
  cross_R (unit_of v1) (unit_of v2) = cross_raw v1 v2 / (Np.norm v1 * Np.norm v2)
  /\ dot_R (unit_of v1) (unit_of v2) = dot_raw v1 v2 / (Np.norm v1 * Np.norm v2)
  /\ 0 < Np.norm v1 * Np.norm v2.
Proof.
  intros H1 H2. pose proof (norm_pos v1 H1). pose proof (norm_pos v2 H2).
  unfold cross_R, dot_R, cross_raw, dot_raw, unit_of; cbn [fst snd].
  repeat split; try (field; lra). nra.
Qed.

Lemma colinear_dot (v1 v2 : vec) :
  v1 <> (0, 0) -> v2 <> (0, 0) -> cross_R (unit_of v1) (unit_of v2) = 0 ->
  dot_R (unit_of v1) (unit_of v2) = 1 \/ dot_R (unit_of v1) (unit_of v2) = -1.
Proof.
  intros H1 H2 Hc. pose proof (dot_cross_unit v1 v2 H1 H2) as L. rewrite Hc in L.
  set (d := dot_R (unit_of v1) (unit_of v2)) in *.
  assert ((d - 1) * (d + 1) = 0) as Z by lra.
  apply Rmult_integral in Z. destruct Z; [left | right]; lra.
Qed.

Lemma angle_between_swap (v1 v2 : vec) :
  angle_between v2 v1 <> Fin PI ->
  angle_between v1 v2 = np_neg (angle_between v2 v1).
Proof.
  intros Hpi.
  destruct (vec_eq_dec v1 (0, 0)) as [-> | N1].
  { rewrite angle_between_nan_l, angle_between_nan_r. reflexivity. }
  destruct (vec_eq_dec v2 (0, 0)) as [-> | N2].
  { rewrite angle_between_nan_l, angle_between_nan_r. reflexivity. }
  rewrite (angle_between_nonzero v2 v1) in * by assumption.
  rewrite (angle_between_nonzero v1 v2) by assumption.
  replace (cross_R (unit_of v2) (unit_of v1)) with (- cross_R (unit_of v1) (unit_of v2)) in *
    by (unfold cross_R; ring).
  replace (dot_R (unit_of v2) (unit_of v1)) with (dot_R (unit_of v1) (unit_of v2)) in *
    by (unfold dot_R; ring).
  cbn. f_equal.
  destruct (Req_dec_T (cross_R (unit_of v1) (unit_of v2)) 0) as [Hc | Hc].
  - rewrite Hc in *. rewrite Ropp_0 in *.
    destruct (colinear_dot v1 v2 N1 N2 Hc) as [Hd | Hd]; rewrite Hd in *.
    + rewrite clamp_R_id by lra. rewrite acos_1. ring.
    + exfalso. apply Hpi. rewrite clamp_R_id by lra. rewrite acos_minus_1.
      unfold tie_sign. destruct (Rlt_dec 0 0); [lra |]. f_equal; ring.
  - rewrite tie_sign_opp by assumption. ring.
Qed.

(** ** The direction of a turn *)

Section Turn.

Variables v1 v2 : vec.
Hypothesis v1_nonzero : v1 <> (0, 0).
Hypothesis v2_nonzero : v2 <> (0, 0).

Lemma strict_turn_bounds :
  cross_raw v1 v2 <> 0 ->
  0 < acos (clamp_R (dot_R (unit_of v1) (unit_of v2))) < PI.
Proof.
  intros Hc.
  destruct (unit_products v1 v2 v1_nonzero v2_nonzero) as (Ec & _ & Hn).
  pose proof (dot_unit_bounds v1 v2 v1_nonzero v2_nonzero) as Hb.
  pose proof (dot_cross_unit v1 v2 v1_nonzero v2_nonzero) as L.
  rewrite clamp_R_id by assumption.
  assert (cross_R (unit_of v1) (unit_of v2) <> 0) as Hu.
  { rewrite Ec. intros Z. apply Hc. unfold Rdiv in Z.
    apply Rmult_integral in Z. destruct Z as [Z | Z]; [exact Z |].
    exfalso. assert (0 < / (Np.norm v1 * Np.norm v2)) by (apply Rinv_0_lt_compat; exact Hn).
    lra. }
  apply acos_bound_lt.
  set (c := cross_R (unit_of v1) (unit_of v2)) in *.
  set (d := dot_R (unit_of v1) (unit_of v2)) in *.
  assert (0 < c * c) by (destruct (Rlt_dec c 0); nra).
  split; nra.
Qed.

Lemma tie_sign_of_cross :
  tie_sign (cross_R (unit_of v1) (unit_of v2))
  = if Rlt_dec (cross_raw v1 v2) 0 then -1 else 1.
Proof.
  destruct (unit_products v1 v2 v1_nonzero v2_nonzero) as (Ec & _ & Hn).
  assert (0 < / (Np.norm v1 * Np.norm v2)) as Hi by (apply Rinv_0_lt_compat; exact Hn).
  rewrite Ec. unfold tie_sign, Rdiv.
  destruct (Rlt_dec (cross_raw v1 v2 * / (Np.norm v1 * Np.norm v2)) 0),
           (Rlt_dec (cross_raw v1 v2) 0); try reflexivity; exfalso; nra.
Qed.

Lemma left_turn :
  0 < cross_raw v1 v2 -> exists a, angle_between v1 v2 = Fin a /\ 0 < a < PI.
Proof.
  intros Hc. eexists. split; [apply angle_between_nonzero; assumption |].
  rewrite tie_sign_of_cross. destruct (Rlt_dec (cross_raw v1 v2) 0); [lra |].
  pose proof (strict_turn_bounds ltac:(lra)). lra.
Qed.

Lemma right_turn :
  cross_raw v1 v2 < 0 -> exists a, angle_between v1 v2 = Fin a /\ - PI < a < 0.
Proof.
  intros Hc. eexists. split; [apply angle_between_nonzero; assumption |].
  rewrite tie_sign_of_cross. destruct (Rlt_dec (cross_raw v1 v2) 0); [| lra].
  pose proof (strict_turn_bounds ltac:(lra)). lra.
Qed.

Lemma straight_or_reversed :
  cross_raw v1 v2 = 0 ->
  (0 < dot_raw v1 v2 /\ angle_between v1 v2 = Fin 0)
  \/ (dot_raw v1 v2 < 0 /\ angle_between v1 v2 = Fin PI).
Proof.
  intros Hc.
  destruct (unit_products v1 v2 v1_nonzero v2_nonzero) as (Ec & Ed & Hn).
  assert (0 < / (Np.norm v1 * Np.norm v2)) as Hi by (apply Rinv_0_lt_compat; exact Hn).
  assert (cross_R (unit_of v1) (unit_of v2) = 0) as Hu
      by (rewrite Ec, Hc; unfold Rdiv; ring).
  rewrite angle_between_nonzero by assumption.
  rewrite tie_sign_of_cross. destruct (Rlt_dec (cross_raw v1 v2) 0); [lra |].
  destruct (colinear_dot v1 v2 v1_nonzero v2_nonzero Hu) as [Hd | Hd];
    rewrite Hd, clamp_R_id by lra; rewrite Hd in Ed; unfold Rdiv in Ed.
  - left. split; [nra |]. rewrite acos_1. f_equal; ring.
  - right. split; [nra |]. rewrite acos_minus_1. f_equal; ring.
Qed.

End Turn.


(** ** [normalize] and [angle_between] under scaling *)

Lemma normalize_scaled_pos (c : R) (v : vec) : 0 < c -> normalize (scale c v) = normalize v.
Proof.
  intros Hc. destruct (vec_eq_dec v (0, 0)) as [-> | Hv].
  - rewrite scale_zero. reflexivity.
  - rewrite (normalize_nonzero v Hv).
    rewrite normalize_nonzero by (apply scale_nonzero; [lra | exact Hv]).
    pose proof (norm_pos v Hv) as Hn.
    rewrite norm_scale, (Rabs_right c) by lra. unfold scale; cbn [fst snd].
    f_equal; f_equal; field; lra.
Qed.




(** ** Rotating and reversing the polygon *)

Lemma mod_succ_succ (n i : nat) : (((i + 1) mod n + 1) mod n = (i + 2) mod n)%nat.
Proof. rewrite Nat.Div0.add_mod_idemp_l. f_equal; lia. Qed.

Lemma mod_succ_two (n i : nat) : (((i + 1) mod n + 2) mod n = ((i + 2) mod n + 1) mod n)%nat.
Proof. rewrite !Nat.Div0.add_mod_idemp_l. f_equal; lia. Qed.

Lemma point_at_rotated (a : vec) (l : list vec) (x : nat) :
  (x < length (a :: l))%nat ->
  point_at (l ++ [a]) x = point_at (a :: l) ((x + 1) mod length (a :: l)).
Proof.
  intros Hx. unfold point_at. cbn [length] in *.
  destruct (Nat.eq_dec x (length l)) as [-> | Hne].
  - replace (length l + 1)%nat with (S (length l)) by lia.
    rewrite Nat.Div0.mod_same. rewrite app_nth2 by lia.
    rewrite Nat.sub_diag. reflexivity.
  - rewrite Nat.mod_small by lia. rewrite app_nth1 by lia.
    replace (x + 1)%nat with (S x) by lia. reflexivity.
Qed.

Lemma turning_angle_rotated (a : vec) (l : list vec) (i : nat) :
  (i < length (a :: l))%nat ->
  turning_angle (l ++ [a]) i
  = turning_angle (a :: l) ((i + 1) mod length (a :: l)).
Proof.
  intros Hi. unfold turning_angle. cbv zeta.
  assert (length (l ++ [a]) = length (a :: l)) as -> by (rewrite length_app; simpl; lia).
  set (n := length (a :: l)) in *.
  assert (n <> 0)%nat as Hn by (unfold n; simpl; lia).
  rewrite !point_at_rotated by (try apply Nat.mod_upper_bound; assumption).
  fold n. rewrite mod_succ_succ, mod_succ_two. reflexivity.
Qed.

(** The loop does not depend on the vertex it starts from. *)
Lemma sum_turning_angles_rotated (a : vec) (l : list vec) :
  sum_turning_angles (l ++ [a]) = sum_turning_angles (a :: l).
Proof.
  rewrite !sum_turning_angles_np_sum.
  rewrite (sum_turning_angles_reindexed (a :: l) (l ++ [a])
             (fun i => ((i + 1) mod length (a :: l))%nat) (fun x => x)).
  - rewrite map_id. reflexivity.
  - rewrite length_app; simpl; lia.
  - intros i _. apply Nat.mod_upper_bound. simpl; lia.
  - intros i j Hi Hj. apply add_mod_inj; assumption.
  - intros i Hi. apply turning_angle_rotated, Hi.
Qed.

Lemma mirror_succ (n x : nat) :
  (x < n)%nat -> ((n - 1 - (x + 1) mod n + 1) mod n = n - 1 - x)%nat.
Proof.
  intros Hx. destruct (Nat.eq_dec (x + 1) n) as [E | E].
  - rewrite E, Nat.Div0.mod_same. replace (n - 1 - 0 + 1)%nat with n by lia.
    rewrite Nat.Div0.mod_same. lia.
  - rewrite (Nat.mod_small (x + 1)) by lia. rewrite Nat.mod_small by lia. lia.
Qed.

Lemma point_at_rev (w : list vec) (x : nat) :
  (x < length w)%nat -> point_at (rev w) x = point_at w (length w - 1 - x).
Proof.
  intros Hx. unfold point_at. rewrite rev_nth by assumption. f_equal. lia.
Qed.

Lemma vsub_opp (p q : vec) : vsub p q = scale (-1) (vsub q p).
Proof. unfold scale, vsub; cbn [fst snd]; f_equal; ring. Qed.

Lemma turning_angle_rev (w : list vec) (i : nat) :
  (i < length w)%nat ->
  turning_angle w (length w - 1 - (i + 2) mod length w) <> Fin PI ->
  turning_angle (rev w) i
  = np_neg (turning_angle w (length w - 1 - (i + 2) mod length w)).
Proof.
  intros Hi Hpi. unfold turning_angle in *. cbv zeta in *.
  rewrite length_rev. set (n := length w) in *.
  assert (n <> 0)%nat as Hn by lia.
  assert ((i + 1) mod n < n)%nat as Hj by (apply Nat.mod_upper_bound; assumption).
  assert ((i + 2) mod n < n)%nat as Hk by (apply Nat.mod_upper_bound; assumption).
  rewrite !point_at_rev by assumption. fold n.
  assert ((n - 1 - (i + 2) mod n + 1) mod n = n - 1 - (i + 1) mod n)%nat as E1.
  { rewrite <- mod_succ_succ. apply mirror_succ. exact Hj. }
  assert ((n - 1 - (i + 2) mod n + 2) mod n = n - 1 - i)%nat as E2.
  { replace (n - 1 - (i + 2) mod n + 2)%nat with (n - 1 - (i + 2) mod n + 1 + 1)%nat by lia.
    rewrite <- Nat.Div0.add_mod_idemp_l, E1. apply mirror_succ. exact Hi. }
  rewrite E1, E2 in *.
  set (pi := point_at w (n - 1 - i)) in *.
  set (pj := point_at w (n - 1 - (i + 1) mod n)) in *.
  set (pk := point_at w (n - 1 - (i + 2) mod n)) in *.
  rewrite (vsub_opp pj pk), (vsub_opp pi pj) in *.
  rewrite angle_between_scaled in * by lra.
  apply angle_between_swap. exact Hpi.
Qed.

(** Without a turn of pi the loop over the reversed polygon gives the
    negated total. *)
Lemma sum_turning_angles_rev (w : list vec) :
  (forall i, (i < length w)%nat -> turning_angle w i <> Fin PI) ->
  sum_turning_angles (rev w) = np_neg (sum_turning_angles w).
Proof.
  intros Hpi. rewrite !sum_turning_angles_np_sum, <- np_sum_neg.
  destruct (Nat.eq_dec (length w) 0) as [E | Hn].
  { rewrite length_rev, E. reflexivity. }
  assert (forall i, (length w - 1 - (i + 2) mod length w < length w)%nat) as Hb.
  { intros i. pose proof (Nat.mod_upper_bound (i + 2) (length w) Hn). lia. }
  apply (sum_turning_angles_reindexed w (rev w)
           (fun i => (length w - 1 - (i + 2) mod length w)%nat) np_neg).
  - apply length_rev.
  - intros i _. apply Hb.
  - intros i j Hi Hj E. apply (add_mod_inj (length w) 2); try assumption.
    pose proof (Nat.mod_upper_bound (i + 2) (length w) Hn).
    pose proof (Nat.mod_upper_bound (j + 2) (length w) Hn). lia.
  - intros i Hi. apply turning_angle_rev; [exact Hi |]. apply Hpi, Hb.
Qed.

(** ** Degenerate and well-formed polygons *)

Lemma np_add_nan_r (x : np_float) : Np.add x NaN = NaN.
Proof. destruct x; reflexivity. Qed.

Lemma np_sum_nan (l : list np_float) : In NaN l -> np_sum l = NaN.
Proof.
  unfold np_sum. induction l as [| x l IH]; cbn; [tauto |].
  intros [-> | H]; [reflexivity |]. rewrite IH by assumption. apply np_add_nan_r.
Qed.

Lemma vsub_diag (p q : vec) : p = q -> vsub p q = (0, 0).
Proof. intros ->. unfold vsub. f_equal; ring. Qed.

Lemma turning_angle_zero_edge (w : list vec) (i : nat) :
  point_at w i = point_at w ((i + 1) mod length w) -> turning_angle w i = NaN.
Proof.
  intros E. unfold turning_angle. cbv zeta.
  rewrite (vsub_diag (point_at w ((i + 1) mod length w)) (point_at w i)) by (symmetry; exact E).
  apply angle_between_nan_l.
Qed.

(** X5: on an accepted polygon whose working sequence has a vertex equal
    to its successor (the first vertex succeeding the last), the total
    angle is nan and [compute_n_rotations] fails its assertion. *)
Theorem zero_edge_gives_nan (points : list vec) (i : nat) :
  (2 < length points)%nat ->
  (i < length (trim_closing_point points))%nat ->
  point_at (trim_closing_point points) i
  = point_at (trim_closing_point points) ((i + 1) mod length (trim_closing_point points)) ->
  compute_total_angle points = Returned NaN
  /\ compute_n_rotations points = AssertionError.
Proof.
  intros Hlen Hi E.
  assert (compute_total_angle points = Returned NaN) as H.
  { unfold compute_total_angle. apply Nat.ltb_lt in Hlen. rewrite Hlen. f_equal.
    rewrite sum_turning_angles_np_sum. apply np_sum_nan.
    rewrite <- (turning_angle_zero_edge _ i E). apply in_map, in_seq. lia. }
  split; [exact H |]. unfold compute_n_rotations. rewrite H. reflexivity.
Qed.


Lemma point_at_map (f : vec -> vec) (w : list vec) (i : nat) :
  (i < length w)%nat -> point_at (map f w) i = f (point_at w i).
Proof.
  intros Hi. unfold point_at.
  rewrite (nth_indep (map f w) (0, 0) (f (0, 0))) by (rewrite length_map; exact Hi).
  apply map_nth.
Qed.

Lemma vsub_similar (c : R) (d p q : vec) :
  vsub (translate d (scale c p)) (translate d (scale c q)) = scale c (vsub p q).
Proof. unfold vsub, translate, scale; cbn [fst snd]. f_equal; ring. Qed.

(** The loop gives the same total on a scaled and translated polygon. *)
Lemma sum_turning_angles_similar (c : R) (d : vec) (w : list vec) :
  c <> 0 ->
  sum_turning_angles (map (fun p => translate d (scale c p)) w) = sum_turning_angles w.
Proof.
  intros Hc. rewrite !sum_turning_angles_np_sum, length_map. f_equal.
  apply map_ext_in. intros i Hi. apply in_seq in Hi.
  assert (length w <> 0)%nat as Hn by lia.
  unfold turning_angle. cbv zeta. rewrite length_map.
  rewrite !point_at_map by (try apply Nat.mod_upper_bound; lia).
  rewrite !vsub_similar. apply angle_between_scaled. nra.
Qed.

Lemma angle_between_abs_le_PI (v1 v2 : vec) (a : R) :
  angle_between v1 v2 = Fin a -> Rabs a <= PI.
Proof.
  intros H. destruct (angle_between_Fin_inv _ _ _ H) as [H1 H2].
  rewrite angle_between_nonzero in H by assumption. injection H as <-.
  rewrite Rabs_mult.
  pose proof (acos_bound (clamp_R (dot_R (unit_of v1) (unit_of v2)))) as Hb.
  rewrite (Rabs_right (acos _)) by lra.
  destruct (tie_sign_unit (cross_R (unit_of v1) (unit_of v2))) as [-> | ->].
  - rewrite Rabs_R1. lra.
  - rewrite Rabs_left by lra. lra.
Qed.

Lemma partial_turning_bound (w : list vec) (m : nat) (s : R) :
  partial_turning w m = Fin s -> Rabs s <= PI * INR m.
Proof.
  revert s. induction m as [| m IH]; intros s H.
  - injection H as <-. rewrite Rabs_R0. simpl. lra.
  - rewrite partial_turning_S in H.
    destruct (add_Fin_inv _ _ _ H) as (s' & a & Hs & Ha & ->).
    specialize (IH s' Hs). unfold turning_angle in Ha. cbv zeta in Ha.
    apply angle_between_abs_le_PI in Ha.
    rewrite S_INR. pose proof (Rabs_triang s' a). lra.
Qed.


(** X8: appending a copy of the first point to a polygon of at least 3
    points that does not already close on its first point leaves the total
    angle unchanged. *)
Theorem closing_point_is_optional (points : list vec) :
  (2 < length points)%nat ->
  closes_on_first points = false ->
  compute_total_angle (points ++ [point_at points 0]) = compute_total_angle points.
Proof.
  intros Hlen Hopen. unfold compute_total_angle.
  pose proof Hlen as Hlen'. apply Nat.ltb_lt in Hlen'. rewrite Hlen'.
  assert ((2 <? length (points ++ [point_at points 0]))%nat = true) as ->
      by (apply Nat.ltb_lt; rewrite length_app; simpl; lia).
  f_equal. f_equal. unfold trim_closing_point. rewrite Hopen.
  assert (closes_on_first (points ++ [point_at points 0]) = true) as ->.
  { unfold closes_on_first. cbv zeta. rewrite last_last.
    assert (point_at (points ++ [point_at points 0]) 0 = point_at points 0) as ->.
    { unfold point_at. apply app_nth1. lia. }
    rewrite !isclose_R_refl by (unfold Np.default_atol; lra). reflexivity. }
  apply removelast_last.
Qed.

(** ** Symmetries of the public functions *)


Lemma removelast_map (A B : Type) (f : A -> B) (l : list A) :
  removelast (map f l) = map f (removelast l).
Proof.
  induction l as [| x [| y l] IH]; try reflexivity.
  cbn [map removelast] in *. rewrite IH. reflexivity.
Qed.


Lemma rotations_of_negated (t : np_float) (r : np_float) :
  (t = NaN \/ exists k : Z, t = Fin (2 * PI * IZR k)) ->
  rotations_of_total_angle t = Returned r ->
  rotations_of_total_angle (np_neg t) = Returned (np_neg r).
Proof.
  intros [-> | [k ->]] H.
  - discriminate.
  - rewrite rotations_of_full_turns in H. injection H as <-. cbn.
    replace (- (2 * PI * IZR k)) with (2 * PI * IZR (- k)) by (rewrite opp_IZR; ring).
    rewrite rotations_of_full_turns, opp_IZR. reflexivity.
Qed.

Lemma full_turns_or_nan (w : list vec) :
  sum_turning_angles w = NaN
  \/ exists k : Z, sum_turning_angles w = Fin (2 * PI * IZR k).
Proof.
  destruct (sum_turning_angles w) as [t |] eqn:E; [right | left; reflexivity].
  destruct (sum_turning_angles_full_turns _ _ E) as [k ->]. eauto.
Qed.

Lemma closed_ring_shape (points : list vec) :
  (2 < length points)%nat -> last points (0, 0) = point_at points 0 ->
  exists p l, points = p :: l ++ [p].
Proof.
  intros Hlen E. destruct points as [| p rest]; [simpl in Hlen; lia |].
  assert (rest <> []) as Hne by (intros ->; simpl in Hlen; lia).
  destruct (exists_last Hne) as (l & q & ->).
  exists p, l. unfold point_at in E. cbn [nth] in E.
  change (p :: l ++ [q]) with ((p :: l) ++ [q]) in E. rewrite last_last in E.
  subst q. reflexivity.
Qed.

Lemma closes_on_ring (p : vec) (l : list vec) : closes_on_first (p :: l ++ [p]) = true.
Proof.
  unfold closes_on_first, point_at. cbv zeta. cbn [nth].
  change (p :: l ++ [p]) with ((p :: l) ++ [p]). rewrite last_last.
  rewrite !isclose_R_refl by (unfold Np.default_atol; lra). reflexivity.
Qed.

Lemma trim_ring (p : vec) (l : list vec) : trim_closing_point (p :: l ++ [p]) = p :: l.
Proof.
  unfold trim_closing_point. rewrite closes_on_ring.
  change (p :: l ++ [p]) with ((p :: l) ++ [p]). apply removelast_last.
Qed.

Lemma reversed_working_sum (points : list vec) :
  (2 < length points)%nat ->
  (closes_on_first points = false /\ closes_on_first (rev points) = false)
  \/ last points (0, 0) = point_at points 0 ->
  (forall i, (i < length (trim_closing_point points))%nat ->
             turning_angle (trim_closing_point points) i <> Fin PI) ->
  sum_turning_angles (trim_closing_point (rev points))
  = np_neg (sum_turning_angles (trim_closing_point points)).
Proof.
  intros Hlen [[Ho Hor] | Hc] Hpi.
  - unfold trim_closing_point in *. rewrite Ho in *. rewrite Hor.
    apply sum_turning_angles_rev, Hpi.
  - destruct (closed_ring_shape points Hlen Hc) as (p & l & ->).
    rewrite trim_ring in *.
    assert (rev (p :: l ++ [p]) = p :: rev l ++ [p]) as ->.
    { cbn [rev]. rewrite rev_app_distr. reflexivity. }
    rewrite trim_ring. rewrite <- sum_turning_angles_rotated.
    change (rev l ++ [p]) with (rev (p :: l)).
    apply sum_turning_angles_rev, Hpi.
Qed.


(** ** The program's own tests *)

Lemma check_passes (expected actual rtol : R) :
  0 <= rtol -> expected = actual -> check (Fin expected) (Fin actual) rtol = Returned tt.
Proof.
  intros Hr ->. unfold check. cbn [Np.isclose].
  rewrite isclose_R_refl by (unfold Np.default_atol; lra). reflexivity.
Qed.

Ltac trig_values_6 :=
  rewrite ?cos_neg, ?sin_neg, ?neg_cos, ?neg_sin, ?cos_neg, ?sin_neg,
          ?cos_0, ?sin_0, ?cos_PI2, ?sin_PI2, ?cos_PI, ?sin_PI,
          ?cos_2PI, ?sin_2PI, ?cos_3PI2, ?sin_3PI2, ?cos_PI4, ?sin_PI4,
          ?cos_3PI4, ?sin_3PI4, ?cos_5PI4, ?sin_5PI4, ?cos_PI6, ?sin_PI6.

Ltac as_polar :=
  unfold polar, vsub, point_at; cbn [nth fst snd]; trig_values_6;
  f_equal; (lra || (field; apply Rgt_not_eq, sqrt2_pos)).

Ltac turn_by r1 a r2 b :=
  rewrite (angle_between_directions r1 r2 a b);
  [ | lra || apply sqrt2_pos || (pose proof sqrt2_pos; lra)
    | lra || apply sqrt2_pos || (pose proof sqrt2_pos; lra)
    | pose proof PI_RGT_0; lra
    | as_polar | as_polar ].

Ltac passes := rewrite check_passes by (unfold check_rtol, Np.pi; lra); cbn [bind].

(** X12: the six assertions of [test_angle_between] hold. *)
Theorem test_angle_between_passes : test_angle_between = Returned tt.
Proof.
  unfold test_angle_between.
  turn_by 10 0 3 (PI / 2). passes.
  turn_by 10 (PI / 2) 100 0. passes.
  turn_by 10 0 2 (- (PI / 6) + PI). passes.
  turn_by 10 0 2 (PI / 6). passes.
  turn_by 10 0 2 (- (- (PI / 6) + PI)). passes.
  turn_by 1 (PI / 2) (5 * sqrt 2) (PI / 4).
  apply check_passes; unfold check_rtol, Np.pi; lra.
Qed.

Lemma nonconvex_total_angle :
  compute_total_angle nonconvex_polygon = Returned (Fin (2 * PI)).
Proof.
  pose proof PI_RGT_0 as Hpi.
  assert (compute_total_angle nonconvex_polygon
          = Returned (sum_turning_angles nonconvex_polygon)) as H.
  { unfold compute_total_angle, nonconvex_polygon. cbn [length Nat.ltb Nat.leb].
    unfold trim_closing_point, closes_on_first, point_at. cbn [nth last fst snd].
    replace (Np.isclose_R 0 2 1e-8 Np.default_atol) with false
      by (symmetry; apply isclose_R_false_iff; solve_abs).
    reflexivity. }
  rewrite H. f_equal.
  destruct (left_turn (0, 10) (-2, -10)) as (a3 & E3 & B3);
    [apply vec_neq; lra | apply vec_neq; lra | unfold cross_raw; cbn [fst snd]; lra |].
  destruct (left_turn (-2, -10) (1, 0)) as (a4 & E4 & B4);
    [apply vec_neq; lra | apply vec_neq; lra | unfold cross_raw; cbn [fst snd]; lra |].
  assert (sum_turning_angles nonconvex_polygon
          = Fin (0 + (- (PI / 2) - 0) + (PI / 4 - - (PI / 2)) + (PI / 2 - PI / 4) + a3 + a4)) as S.
  { unfold nonconvex_polygon. unroll_loop.
    turn_by 1 0 1 (- (PI / 2)).
    turn_by 1 (- (PI / 2)) (sqrt 2) (PI / 4).
    turn_by (sqrt 2) (PI / 4) 10 (PI / 2).
    replace (vsub (point_at _ 4) (point_at _ 3)) with (0, 10)
      by (unfold vsub, point_at; cbn [nth fst snd]; f_equal; lra).
    replace (vsub (point_at _ 0) (point_at _ 4)) with (-2, -10)
      by (unfold vsub, point_at; cbn [nth fst snd]; f_equal; lra).
    replace (vsub (point_at _ 1) (point_at _ 0)) with (1, 0)
      by (unfold vsub, point_at; cbn [nth fst snd]; f_equal; lra).
    rewrite E3, E4. reflexivity. }
  rewrite S. f_equal.
  destruct (sum_turning_angles_full_turns _ _ S) as [k Hk].
  assert (k = 1%Z) as ->.
  { assert (0 < IZR k < 2) as [Hl Hu] by (split; nra).
    apply lt_IZR in Hl, Hu. lia. }
  rewrite Hk. ring.
Qed.

Lemma cw_closed_triangle_total_angle :
  compute_total_angle [(0, 0); (1, 1); (1, 0); (0, 0)] = Returned (Fin (- (2 * PI))).
Proof.
  unfold compute_total_angle. cbn [length Nat.ltb Nat.leb].
  unfold trim_closing_point, closes_on_first, point_at. cbn [nth last fst snd].
  rewrite !isclose_R_refl by (unfold Np.default_atol; lra).
  cbn [andb removelast]. unroll_loop.
  turn_by (sqrt 2) (PI / 4) 1 (- (PI / 2)).
  turn_by 1 (- (PI / 2)) 1 (- PI).
  turn_by 1 PI (sqrt 2) (PI / 4).
  cbn. do 2 f_equal. lra.
Qed.

Lemma cw_square_total_angle :
  compute_total_angle (rev [(0, 0); (1, 0); (1, 1); (0, 1)]) = Returned (Fin (- (2 * PI))).
Proof.
  unfold compute_total_angle. cbn [rev app length Nat.ltb Nat.leb].
  unfold trim_closing_point, closes_on_first, point_at. cbn [nth last fst snd].
  replace (Np.isclose_R 1 0 1e-8 Np.default_atol) with false
    by (symmetry; apply isclose_R_false_iff; solve_abs).
  rewrite andb_false_r. unroll_loop.
  turn_by 1 0 1 (- (PI / 2)).
  turn_by 1 (- (PI / 2)) 1 (- PI).
  turn_by 1 PI 1 (PI / 2).
  turn_by 1 (PI / 2) 1 0.
  cbn. do 2 f_equal. lra.
Qed.

Lemma cw_nonconvex_total_angle :
  compute_total_angle (rev nonconvex_polygon) = Returned (Fin (- (2 * PI))).
Proof.
  pose proof PI_RGT_0 as Hpi.
  assert (compute_total_angle (rev nonconvex_polygon)
          = Returned (sum_turning_angles (rev nonconvex_polygon))) as H.
  { unfold compute_total_angle, nonconvex_polygon. cbn [rev app length Nat.ltb Nat.leb].
    unfold trim_closing_point, closes_on_first, point_at. cbn [nth last fst snd].
    replace (Np.isclose_R 2 0 1e-8 Np.default_atol) with false
      by (symmetry; apply isclose_R_false_iff; solve_abs).
    reflexivity. }
  rewrite H. f_equal.
  destruct (right_turn (-1, 0) (2, 10)) as (a3 & E3 & B3);
    [apply vec_neq; lra | apply vec_neq; lra | unfold cross_raw; cbn [fst snd]; lra |].
  destruct (right_turn (2, 10) (0, -10)) as (a4 & E4 & B4);
    [apply vec_neq; lra | apply vec_neq; lra | unfold cross_raw; cbn [fst snd]; lra |].
  assert (sum_turning_angles (rev nonconvex_polygon)
          = Fin (0 + (- (3 * (PI / 4)) - - (PI / 2)) + (PI / 2 - 5 * (PI / 4))
                 + (PI - PI / 2) + a3 + a4)) as S.
  { unfold nonconvex_polygon. cbn [rev app]. unroll_loop.
    turn_by 10 (- (PI / 2)) (sqrt 2) (- (3 * (PI / 4))).
    turn_by (sqrt 2) (5 * (PI / 4)) 1 (PI / 2).
    turn_by 1 (PI / 2) 1 PI.
    replace (vsub (point_at _ 4) (point_at _ 3)) with (-1, 0)
      by (unfold vsub, point_at; cbn [nth fst snd]; f_equal; lra).
    replace (vsub (point_at _ 0) (point_at _ 4)) with (2, 10)
      by (unfold vsub, point_at; cbn [nth fst snd]; f_equal; lra).
    replace (vsub (point_at _ 1) (point_at _ 0)) with (0, -10)
      by (unfold vsub, point_at; cbn [nth fst snd]; f_equal; lra).
    rewrite E3, E4. reflexivity. }
  rewrite S. f_equal.
  destruct (sum_turning_angles_full_turns _ _ S) as [k Hk].
  assert (k = (-1)%Z) as ->.
  { assert (-2 < IZR k < 0) as [Hl Hu] by (split; nra).
    apply lt_IZR in Hl, Hu. lia. }
  rewrite Hk. ring.
Qed.

(** X13: the six assertions of [test_compute_total_angle] hold. *)
Theorem test_compute_total_angle_passes : test_compute_total_angle = Returned tt.
Proof.
  unfold test_compute_total_angle. cbv zeta.
  change [(0, 0); (1, 0); (1, 1)] with ccw_triangle.
  change [(0, 0); (1, 0); (1, 1); (0, 1); (0, 0)] with ccw_square_closed.
  change [(0, 0); (1, 0); (1, -1); (2, 0); (2, 10)] with nonconvex_polygon.
  rewrite ccw_triangle_total_angle. cbn [bind]. passes.
  rewrite ccw_square_total_angle. cbn [bind]. passes.
  rewrite nonconvex_total_angle. cbn [bind]. passes.
  rewrite cw_closed_triangle_total_angle. cbn [bind]. passes.
  rewrite cw_square_total_angle. cbn [bind]. passes.
  replace (compute_total_angle _) with (Returned (Fin (- (2 * PI))))
    by (symmetry; exact cw_nonconvex_total_angle).
  cbn [bind].
  apply check_passes; unfold check_rtol, Np.pi; lra.
Qed.

(** ** Instances *)




Lemma doubled_vertex_untrimmed :
  trim_closing_point [(0, 0); (0, 0); (1, 0)] = [(0, 0); (0, 0); (1, 0)].
Proof.
  unfold trim_closing_point, closes_on_first, point_at. cbn [nth last fst snd].
  replace (Np.isclose_R 0 1 1e-8 Np.default_atol) with false
    by (symmetry; apply isclose_R_false_iff; solve_abs).
  reflexivity.
Qed.

Lemma zero_edge_gives_nan_witness :
  compute_total_angle [(0, 0); (0, 0); (1, 0)] = Returned NaN
  /\ compute_n_rotations [(0, 0); (0, 0); (1, 0)] = AssertionError.
Proof.
  apply (zero_edge_gives_nan _ 0); rewrite ?doubled_vertex_untrimmed.
  - simpl; lia.
  - simpl; lia.
  - reflexivity.
Defined.


Lemma closes_on_first_far (points : list vec) :
  1 / 2 < Rabs (fst (point_at points 0) - fst (last points (0, 0))) ->
  Rabs (fst (last points (0, 0))) <= 10 ->
  closes_on_first points = false.
Proof.
  intros H Hb. unfold closes_on_first. cbv zeta.
  replace (Np.isclose_R (fst (point_at points 0)) (fst (last points (0, 0)))
                        1e-8 Np.default_atol) with false; [reflexivity |].
  symmetry. apply isclose_R_false_iff. unfold Np.default_atol. lra.
Qed.

Ltac far_apart :=
  apply closes_on_first_far; unfold point_at, translate, scale;
  cbn [map app rev nth last fst snd]; solve_abs.


Lemma strict_turn_not_reversal (v1 v2 : vec) :
  v1 <> (0, 0) -> v2 <> (0, 0) -> cross_raw v1 v2 <> 0 ->
  angle_between v1 v2 <> Fin PI.
Proof.
  intros H1 H2 Hc. pose proof PI_RGT_0.
  destruct (Rtotal_order (cross_raw v1 v2) 0) as [Hl | [He | Hg]]; [| contradiction |].
  - destruct (right_turn v1 v2 H1 H2 Hl) as (a & -> & Ha). intros [= E]. lra.
  - destruct (left_turn v1 v2 H1 H2 Hg) as (a & -> & Ha). intros [= E]. lra.
Qed.

Lemma ccw_triangle_turns (i : nat) :
  (i < length (trim_closing_point ccw_triangle))%nat ->
  turning_angle (trim_closing_point ccw_triangle) i <> Fin PI.
Proof.
  rewrite ccw_triangle_untrimmed. unfold ccw_triangle. cbn [length]. intros Hi.
  unfold turning_angle, point_at, vsub.
  destruct i as [| [| [| i]]]; [| | | lia];
    cbn [length Nat.modulo Nat.divmod Nat.add Nat.sub fst snd nth];
    (apply strict_turn_not_reversal;
     [apply vec_neq; lra | apply vec_neq; lra | unfold cross_raw; cbn [fst snd]; lra]).
Qed.




Lemma closing_point_is_optional_witness :
  compute_total_angle (ccw_triangle ++ [point_at ccw_triangle 0])
  = compute_total_angle ccw_triangle.
Proof.
  apply closing_point_is_optional.
  - simpl; lia.
  - unfold ccw_triangle; far_apart.
Defined.
